(** * Audiobook pipeline: text chunker, speech driver, translation prompt,
      waveform columns.

    A shallow embedding of [services/geminiService.ts] ([splitTextSafe],
    [generateSpeech], [translateText]) and of [drawWaveform] of the audio
    player component, with the properties the design document states about
    them. *)

From Stdlib Require Import String Ascii ZArith NArith QArith Bool List Lia.
Import ListNotations.

Local Open Scope Z_scope.

(* ================================================================== *)
(** * Part I. Definitions *)
(* ================================================================== *)

(** ** JavaScript strings

    A JS string is a sequence of UTF-16 code units; [length], [slice],
    [lastIndexOf] and [includes] all count and compare code units. *)

Definition jsstring := list N.

(** A literal of Basic Latin characters as code units. *)
Definition lit (s : string) : jsstring :=
  map N_of_ascii (list_ascii_of_string s).

(** [s.length], as the JS number it is. *)
Definition len (s : jsstring) : Z := Z.of_nat (length s).

Fixpoint units_eqb (a b : jsstring) : bool :=
  match a, b with
  | [], [] => true
  | x :: a', y :: b' => N.eqb x y && units_eqb a' b'
  | _, _ => false
  end.

(** [p] is a prefix of [s]. *)
Fixpoint startsWith (s p : jsstring) {struct p} : bool :=
  match p with
  | [] => true
  | x :: p' =>
      match s with
      | [] => false
      | y :: s' => N.eqb x y && startsWith s' p'
      end
  end.

(** [p] occurs in [s] at index [k]. *)
Definition matchAt (s : jsstring) (k : nat) (p : jsstring) : bool :=
  startsWith (skipn k s) p.

(** [s.includes(p)]: scan the start positions from left to right. *)
Fixpoint includes (s p : jsstring) : bool :=
  startsWith s p ||
  match s with
  | [] => false
  | _ :: s' => includes s' p
  end.

(** A relative index of [slice]: negative counts from the end, and the
    result is clamped to [0 .. length]. *)
Definition relIndex (n : Z) (i : Z) : Z :=
  if i <? 0 then Z.max (n + i) 0 else Z.min i n.

(** [s.slice(a, b)]. *)
Definition slice (s : jsstring) (a b : Z) : jsstring :=
  let from := relIndex (len s) a in
  let to := relIndex (len s) b in
  firstn (Z.to_nat (Z.max (to - from) 0)) (skipn (Z.to_nat from) s).

(** [s.slice(a)]. *)
Definition sliceFrom (s : jsstring) (a : Z) : jsstring :=
  slice s a (len s).

(** The largest [j <= k] at which [p] occurs in [s], or [-1]. *)
Fixpoint lastIndexFrom (s p : jsstring) (k : nat) : Z :=
  if matchAt s k p then Z.of_nat k
  else match k with
       | O => -1
       | S k' => lastIndexFrom s p k'
       end.

(** [s.lastIndexOf(p, pos)]: the search starts at [pos] clamped to
    [0 .. s.length - p.length] and runs towards index 0. *)
Definition lastIndexOf (s p : jsstring) (pos : Z) : Z :=
  if len s <? len p then -1
  else lastIndexFrom s p (Z.to_nat (Z.min (Z.max pos 0) (len s - len p))).

(** ** The text chunker: [splitTextSafe] *)

Definition SPACE : N := 32.
Definition NEWLINE : N := 10.
Definition DOT : N := 46.
Definition QUESTION : N := 63.
Definition BANG : N := 33.

(** [['. ', '? ', '! ', '.\n', ' ']] *)
Definition splitPoints : list jsstring :=
  [ [DOT; SPACE]; [QUESTION; SPACE]; [BANG; SPACE]; [DOT; NEWLINE]; [SPACE] ].

(** The [for (const point of splitPoints)] loop with its [break]: the new
    [end] when a split point qualifies, [None] when [foundSplit] stays
    false. *)
Fixpoint findSplit (text : jsstring) (start end_ : Z) (points : list jsstring)
  : option Z :=
  match points with
  | [] => None
  | point :: rest =>
      let lastPointIndex := lastIndexOf text point end_ in
      if (start <? lastPointIndex) && (lastPointIndex <? end_)
      then Some (lastPointIndex + len point)
      else findSplit text start end_ rest
  end.

(** The value of [end] when the chunk is pushed. *)
Definition chooseEnd (text : jsstring) (start maxLength : Z) : Z :=
  match findSplit text start (start + maxLength) splitPoints with
  | Some e => e
  | None => start + maxLength
  end.

(** The [while (start < text.length)] loop.  [fuel] bounds the number of
    iterations; [None] means the bound was reached with the loop still
    running. *)
Fixpoint splitLoop (fuel : nat) (text : jsstring) (maxLength start : Z)
    (chunks : list jsstring) : option (list jsstring) :=
  match fuel with
  | O => None
  | S fuel' =>
      if start <? len text then
        if len text - start <=? maxLength
        then Some (chunks ++ [sliceFrom text start])
        else
          let end_ := chooseEnd text start maxLength in
          splitLoop fuel' text maxLength end_
                    (chunks ++ [slice text start end_])
      else Some chunks
  end.

(** [splitTextSafe(text, maxLength)], run for at most [text.length + 1]
    iterations. *)
Definition splitTextSafe (text : jsstring) (maxLength : Z)
  : option (list jsstring) :=
  splitLoop (S (length text)) text maxLength 0 [].

(** ** Settled promises

    A call to a remote collaborator either resolves with a value or is
    rejected; an exported function either returns a value or throws
    [new Error(message)]. *)

Inductive outcome (A : Type) : Type :=
| Resolved (value : A)
| Rejected.
Arguments Resolved {A} value.
Arguments Rejected {A}.

Inductive result (A : Type) : Type :=
| Ok (value : A)
| Err (message : jsstring).
Arguments Ok {A} value.
Arguments Err {A} message.

(** ** Translation: [translateText] *)

(** [String.prototype.toLowerCase] belongs to the host, not to this
    repository: the code below takes it as the function [toLowerCase].
    What is written down of it is its value on strings of Basic Latin
    code units, where it turns [A-Z] into [a-z] and leaves the rest. *)
Definition toLowerUnit (c : N) : N :=
  if (65 <=? c)%N && (c <=? 90)%N then (c + 32)%N else c.

Definition toLowerCaseBasic (s : jsstring) : jsstring := map toLowerUnit s.

(** Every code unit is below 128. *)
Definition basicLatin (s : jsstring) : Prop :=
  Forall (fun c => (c < 128)%N) s.

(** [toLowerCase] does on Basic Latin strings what the host's does. *)
Definition lowersBasicLatin (toLowerCase : jsstring -> jsstring) : Prop :=
  forall s, basicLatin s -> toLowerCase s = toLowerCaseBasic s.

Definition QUOTE : N := 34.

(** The template literal [prompt] starts from. *)
Definition plainPrompt (targetLanguage : jsstring) : jsstring :=
  lit "Translate the following text into " ++ targetLanguage ++
  lit ". Ensure the translation is natural and suitable for an audiobook.".

(** The template literal appended for Hindi, line by line. *)
Definition HINDI_INSTRUCTION : jsstring :=
  lit " " ++ [NEWLINE] ++
  lit "IMPORTANT INSTRUCTION: Use conversational, local speakable Hindi (Hinglish where appropriate for common technical or modern terms). " ++
  [NEWLINE] ++
  lit "      - Do NOT use pure, formal, or Sanskritized Hindi (Shuddh Hindi)." ++
  [NEWLINE] ++
  lit "      - It should sound like a natural conversation between friends." ++
  [NEWLINE] ++
  lit "      - Keep English words for terms like 'Computer', 'Internet', 'Office', etc., instead of translating them to complex Hindi equivalents.".

Definition TRANSLATE_FAILED : jsstring := lit "Failed to translate text.".

(** The [name] fields of [SUPPORTED_LANGUAGES] ([constants.ts]), the
    target language names the application passes. *)
Definition SUPPORTED_LANGUAGE_NAMES : list jsstring :=
  [ lit "English"; lit "Hindi"; lit "Bengali"; lit "Gujarati"; lit "Tamil";
    lit "Telugu"; lit "Marathi"; lit "Urdu"; lit "French"; lit "Spanish";
    lit "German" ].

(** [response.text || ""]: an absent text and the empty text both give
    the empty string. *)
Definition textOrEmpty (t : option jsstring) : jsstring :=
  match t with
  | Some s => s
  | None => []
  end.

Section Translation.

(** The host's [String.prototype.toLowerCase]. *)
Variable toLowerCase : jsstring -> jsstring.

(** The value of [prompt] when the request is built. *)
Definition translatePrompt (targetLanguage : jsstring) : jsstring :=
  let prompt := plainPrompt targetLanguage in
  if includes (toLowerCase targetLanguage) (lit "hindi")
  then prompt ++ HINDI_INSTRUCTION
  else prompt.

(** The text part of the request sent to the translation collaborator. *)
Definition translateRequest (text targetLanguage : jsstring) : jsstring :=
  translatePrompt targetLanguage ++ [NEWLINE; NEWLINE] ++
  lit "Text to translate:" ++ [NEWLINE] ++ [QUOTE] ++ text ++ [QUOTE].

(** The translation collaborator: the settled outcome of
    [ai.models.generateContent] for a request text, with the value of
    [response.text] ([None] for [undefined]) when it resolves. *)
Variable generateContent : jsstring -> outcome (option jsstring).

Definition translateText (text targetLanguage : jsstring) : result jsstring :=
  match generateContent (translateRequest text targetLanguage) with
  | Resolved t => Ok (textOrEmpty t)
  | Rejected => Err TRANSLATE_FAILED
  end.

End Translation.

(** ** Speech synthesis: [generateSpeech] *)

Definition bytes := list Byte.byte.

Definition TTS_CHUNK_SIZE : Z := 3000.

(** White space and line terminators, the code units [trim] strips. *)
Definition isWhiteSpace (c : N) : bool :=
  ((9 <=? c) && (c <=? 13) || (c =? 32) || (c =? 160) || (c =? 5760)
   || (8192 <=? c) && (c <=? 8202) || (c =? 8232) || (c =? 8233)
   || (c =? 8239) || (c =? 8287) || (c =? 12288) || (c =? 65279))%N.

Fixpoint trimStart (s : jsstring) : jsstring :=
  match s with
  | [] => []
  | c :: s' => if isWhiteSpace c then trimStart s' else s
  end.

(** [s.trim()]. *)
Definition trim (s : jsstring) : jsstring :=
  rev (trimStart (rev (trimStart s))).

(** [!s]: the empty string is the only falsy string. *)
Definition isFalsy (s : jsstring) : bool :=
  match s with
  | [] => true
  | _ => false
  end.

(** Modelled from the spec: [concatenateBytes] of [utils/audioHelper]
    (not among the sources) preserves the input order, the total length is
    the sum of the input lengths, and the empty sequence gives the
    zero-length buffer. *)
Definition concatenateBytes (parts : list bytes) : bytes := concat parts.

(** Modelled from the spec: [base64ToBytes] of [utils/audioHelper] (not
    among the sources) decodes base64 without line breaks and fails on
    malformed input, a character outside the alphabet included, rather
    than truncating.  This is the standard alphabet with [=] padding;
    [None] is the decoding error.  The driver below takes the decoder as
    a parameter; this one serves where a concrete decoder is needed. *)
Definition sextet (c : N) : option N :=
  if (65 <=? c)%N && (c <=? 90)%N then Some (c - 65)%N
  else if (97 <=? c)%N && (c <=? 122)%N then Some (c - 71)%N
  else if (48 <=? c)%N && (c <=? 57)%N then Some (c + 4)%N
  else if (c =? 43)%N then Some 62%N
  else if (c =? 47)%N then Some 63%N
  else None.

Definition byteOf (n : N) : Byte.byte :=
  match Byte.of_N (n mod 256) with
  | Some b => b
  | None => Byte.x00
  end.

Fixpoint base64ToBytesStrict (s : jsstring) : option bytes :=
  match s with
  | [] => Some []
  | a :: b :: c :: d :: rest =>
      match sextet a, sextet b with
      | Some va, Some vb =>
          match sextet c, sextet d with
          | Some vc, Some vd =>
              let n := (va * 262144 + vb * 4096 + vc * 64 + vd)%N in
              option_map
                (app [byteOf (n / 65536); byteOf (n / 256); byteOf n])
                (base64ToBytesStrict rest)
          | Some vc, None =>
              let n := (va * 262144 + vb * 4096 + vc * 64)%N in
              match rest with
              | [] => if (d =? 61)%N
                      then Some [byteOf (n / 65536); byteOf (n / 256)]
                      else None
              | _ => None
              end
          | None, _ =>
              let n := (va * 262144 + vb * 4096)%N in
              match rest with
              | [] => if (c =? 61)%N && (d =? 61)%N
                      then Some [byteOf (n / 65536)]
                      else None
              | _ => None
              end
          end
      | _, _ => None
      end
  | _ => None
  end.

Definition SPEECH_FAILED : jsstring := lit "Failed to generate speech audio.".

(** What the loop of [generateSpeech] owns: the requests issued so far
    (chunk text and voice name, in call order) and [audioParts]. *)
Record speechState : Type := mkSpeech {
  requests : list (jsstring * jsstring);
  audioParts : list bytes
}.

(** The speech requests a run plans: the chunks that are not blank, in
    chunk order. *)
Definition planned (chunks : list jsstring) : list jsstring :=
  filter (fun c => negb (isFalsy (trim c))) chunks.

(** The payload a settled request contributes: the base64 text when one
    is present, nothing for an absent or empty one. *)
Definition payloadOf (r : outcome (option jsstring)) : option jsstring :=
  match r with
  | Resolved (Some b) => if isFalsy b then None else Some b
  | _ => None
  end.

(** Requests as the loop logs them: chunk text and voice name. *)
Definition asRequests (voiceName : jsstring) (reqs : list jsstring)
  : list (jsstring * jsstring) :=
  map (fun chunk => (chunk, voiceName)) reqs.

Section Speech.

(** The speech collaborator: the settled outcome of the [n]-th request
    of a run ([n] counted from 0) for a chunk and a voice name, with the
    value of
    [response.candidates?.[0]?.content?.parts?.[0]?.inlineData?.data]
    ([None] for [undefined]) when it resolves. *)
Variable generateContent :
  nat -> jsstring -> jsstring -> outcome (option jsstring).

(** [base64ToBytes] and [bytesToBase64] of [utils/audioHelper] (not
    among the sources); [None] is a decoding exception. *)
Variable base64ToBytes : jsstring -> option bytes.
Variable bytesToBase64 : bytes -> jsstring.

(** The [for (const [index, chunk] of chunks.entries())] loop.  The
    second component is [None] when an exception left the loop. *)
Fixpoint speechLoop (chunks : list jsstring) (voiceName : jsstring)
    (st : speechState) : list (jsstring * jsstring) * option (list bytes) :=
  match chunks with
  | [] => (requests st, Some (audioParts st))
  | chunk :: rest =>
      if isFalsy (trim chunk) then speechLoop rest voiceName st
      else
        let sent := requests st ++ [(chunk, voiceName)] in
        match generateContent (length (requests st)) chunk voiceName with
        | Rejected => (sent, None)
        | Resolved data =>
            match data with
            | Some base64Audio =>
                if isFalsy base64Audio
                then speechLoop rest voiceName (mkSpeech sent (audioParts st))
                else
                  match base64ToBytes base64Audio with
                  | Some part =>
                      speechLoop rest voiceName
                        (mkSpeech sent (audioParts st ++ [part]))
                  | None => (sent, None)
                  end
            | None => speechLoop rest voiceName (mkSpeech sent (audioParts st))
            end
        end
  end.

(** The body after the loop, inside the [try]: every exception,
    including the one thrown for an empty [audioParts], is replaced by
    the one error of the [catch]. *)
Definition finishSpeech (loopEnd : option (list bytes)) : result jsstring :=
  match loopEnd with
  | Some parts =>
      match parts with
      | [] => Err SPEECH_FAILED
      | _ => Ok (bytesToBase64 (concatenateBytes parts))
      end
  | None => Err SPEECH_FAILED
  end.

(** [generateSpeech(text, voiceName)]: the requests issued and the
    settled result; [None] only if the chunker did not return. *)
Definition generateSpeech (text voiceName : jsstring)
  : option (list (jsstring * jsstring) * result jsstring) :=
  match splitTextSafe text TTS_CHUNK_SIZE with
  | None => None
  | Some chunks =>
      let '(sent, loopEnd) := speechLoop chunks voiceName (mkSpeech [] []) in
      Some (sent, finishSpeech loopEnd)
  end.

(** The outcomes of the requests for [reqs] when they are issued in
    order, the first of them as request number [n]. *)
Fixpoint outcomesFrom (n : nat) (reqs : list jsstring) (voiceName : jsstring)
  : list (outcome (option jsstring)) :=
  match reqs with
  | [] => []
  | chunk :: rest =>
      generateContent n chunk voiceName :: outcomesFrom (S n) rest voiceName
  end.

(** The decoded bytes of the payloads that are present, in request
    order; [None] when one of them does not decode. *)
Fixpoint decodePayloads (outs : list (outcome (option jsstring)))
  : option (list bytes) :=
  match outs with
  | [] => Some []
  | r :: rest =>
      match payloadOf r with
      | None => decodePayloads rest
      | Some b =>
          match base64ToBytes b with
          | None => None
          | Some part => option_map (cons part) (decodePayloads rest)
          end
      end
  end.

End Speech.

(** ** The waveform: [drawWaveform]

    Samples are the numbers of the channel's [Float32Array]; only their
    order is used, so they are modelled as rationals ([NaN] samples are
    left out of the model).  A read past the end of the array is
    [undefined], and every comparison with [undefined] is false. *)

Definition Qltb (x y : Q) : bool :=
  match Qcompare x y with
  | Lt => true
  | _ => false
  end.

(** One bar of the waveform: the values of [min] and [max] with which
    [ctx.fillRect(i, (1 + min) * amp, 1, Math.max(1, (max - min) * amp))]
    is called. *)
Record column : Type := mkColumn { cmin : Q; cmax : Q }.

(** [Math.ceil(data.length / width)], for [width >= 1]; for [width = 0]
    the outer loop does not run and the value is not used. *)
Definition ceilDiv (n width : nat) : nat := ((n + width - 1) / width)%nat.

(** One pass of the inner loop body: [datum = data[i * step + j]], then
    the two updates. *)
Definition scanSample (data : list Q) (i step : nat) (acc : column) (j : nat)
  : column :=
  let datum := nth_error data (i * step + j) in
  let min' := match datum with
              | Some d => if Qltb d (cmin acc) then d else cmin acc
              | None => cmin acc
              end in
  let max' := match datum with
              | Some d => if Qltb (cmax acc) d then d else cmax acc
              | None => cmax acc
              end in
  mkColumn min' max'.

(** The inner loop [for (let j = 0; j < step; j++)], from [min = 1.0] and
    [max = -1.0]. *)
Definition scanColumn (data : list Q) (step i : nat) : column :=
  fold_left (scanSample data i step) (seq 0 step) (mkColumn (1 # 1) (-1 # 1)).

(** The outer loop [for (let i = 0; i < width; i++)] of [drawWaveform]:
    the bars drawn, from left to right. *)
Definition drawWaveform (data : list Q) (width : nat) : list column :=
  let step := ceilDiv (length data) width in
  map (scanColumn data step) (seq 0 width).

(* ================================================================== *)
(** * Part II. The design document's statements, in its own words *)
(* ================================================================== *)

(** Some split point occurs in [c]: [c] is not one indivisible run. *)
Definition hasMarker (c : jsstring) : bool :=
  existsb (includes c) splitPoints.

(** The chunk bound as the design document words it: a chunk is within
    the budget unless it is one indivisible run longer than the budget,
    and such a run is returned whole. *)
Definition spec_chunk_bound (text : jsstring) (maxLength : Z) : Prop :=
  exists chunks,
    splitTextSafe text maxLength = Some chunks /\
    Forall (fun c => len c <= maxLength \/
                     (hasMarker c = false /\ maxLength < len c)) chunks /\
    (hasMarker text = false -> maxLength < len text -> chunks = [text]).


(** The four sentence-ending split points. *)
Definition sentencePoints : list jsstring :=
  [ [DOT; SPACE]; [QUESTION; SPACE]; [BANG; SPACE]; [DOT; NEWLINE] ].

(** The chunk ends with one of the two-character split points. *)
Definition endsWithPair (c : jsstring) : Prop :=
  exists pre p, In p sentencePoints /\ c = pre ++ p.

(** Preference order as the design document words it: when a
    sentence-ending marker lies strictly after the cursor and at or before
    the candidate end, the cut is made immediately after such a marker,
    whatever bare spaces lie closer to the candidate end. *)
Definition spec_preference (text : jsstring) (start maxLength : Z) : Prop :=
  forall p k,
    In p sentencePoints ->
    matchAt text (Z.to_nat k) p = true ->
    start < k <= start + maxLength ->
    exists q j,
      In q sentencePoints /\
      matchAt text (Z.to_nat j) q = true /\
      start < j <= start + maxLength /\
      chooseEnd text start maxLength = j + len q.

(** Minimal chunk count as the design document words it: no splitting of
    the text that respects the chunk bound has fewer chunks. *)
Definition spec_min_count (text : jsstring) (maxLength : Z) : Prop :=
  forall chunks others : list jsstring,
    splitTextSafe text maxLength = Some chunks ->
    concat others = text ->
    Forall (fun c => len c <= maxLength \/ hasMarker c = false) others ->
    (length chunks <= length others)%nat.

(** The samples of column [i]: the window of [step] samples starting at
    [i * step], cut at the end of the array. *)
Definition window (data : list Q) (step i : nat) : list Q :=
  firstn step (skipn (i * step) data).

(** The update of one bar by a sample that is present. *)
Definition scanDatum (acc : column) (d : Q) : column :=
  mkColumn (if Qltb d (cmin acc) then d else cmin acc)
           (if Qltb (cmax acc) d then d else cmax acc).

Definition minOf (init : Q) (l : list Q) : Q :=
  fold_left (fun m d => if Qltb d m then d else m) l init.

Definition maxOf (init : Q) (l : list Q) : Q :=
  fold_left (fun m d => if Qltb m d then d else m) l init.

(** [renderColumns] as the design document words it: the minimum and the
    maximum of each window, and the default column for an empty window. *)
Definition spec_renderColumns (data : list Q) (columnCount : nat)
  : list column :=
  let step := ceilDiv (length data) columnCount in
  map (fun i => match window data step i with
                | [] => mkColumn (0 # 1) (0 # 1)
                | d :: rest => mkColumn (minOf d rest) (maxOf d rest)
                end)
      (seq 0 columnCount).

(** A name contains "hindi" up to the case of its letters: five
    consecutive code units that are the letters h, i, n, d, i, each in
    lower or upper case. *)
Definition letterOf (lower c : N) : Prop :=
  c = lower \/ (c + 32)%N = lower.

Definition containsHindi (name : jsstring) : Prop :=
  exists pre mid post,
    name = pre ++ mid ++ post /\ Forall2 letterOf (lit "hindi") mid.


(* ================================================================== *)
(** * Part III. Properties *)
(* ================================================================== *)

(** ** Strings *)

Lemma len_nonneg (s : jsstring) : 0 <= len s.
Proof. unfold len; lia. Qed.

Lemma len_app (a b : jsstring) : len (a ++ b) = len a + len b.
Proof. unfold len; rewrite length_app; lia. Qed.

Lemma len_nil_inv (s : jsstring) : len s = 0 -> s = [].
Proof. unfold len; destruct s; simpl; [reflexivity | lia]. Qed.

Lemma relIndex_inside (n i : Z) : 0 <= i <= n -> relIndex n i = i.
Proof.
  intros H; unfold relIndex.
  destruct (Z.ltb_spec i 0); lia.
Qed.

(** Inside the string, [slice] is "drop [a], keep [b - a]". *)
Lemma slice_inside (s : jsstring) (a b : Z) :
  0 <= a <= b -> b <= len s ->
  slice s a b = firstn (Z.to_nat (b - a)) (skipn (Z.to_nat a) s).
Proof.
  intros Hab Hb; unfold slice.
  rewrite !relIndex_inside by lia.
  rewrite Z.max_l by lia; reflexivity.
Qed.

Lemma sliceFrom_inside (s : jsstring) (a : Z) :
  0 <= a <= len s -> sliceFrom s a = skipn (Z.to_nat a) s.
Proof.
  intros Ha; unfold sliceFrom.
  rewrite slice_inside by lia.
  apply firstn_all2.
  rewrite length_skipn; unfold len in *; lia.
Qed.

Lemma len_slice (s : jsstring) (a b : Z) :
  0 <= a <= b -> b <= len s -> len (slice s a b) = b - a.
Proof.
  intros Hab Hb; rewrite slice_inside by assumption.
  unfold len in *; rewrite length_firstn, length_skipn; lia.
Qed.

(** A slice followed by the rest of the string is the string from the
    slice's start. *)
Lemma slice_then_rest (s : jsstring) (a b : Z) :
  0 <= a <= b -> b <= len s ->
  slice s a b ++ skipn (Z.to_nat b) s = skipn (Z.to_nat a) s.
Proof.
  intros Hab Hb; rewrite slice_inside by assumption.
  replace (Z.to_nat b) with (Z.to_nat (b - a) + Z.to_nat a)%nat by lia.
  rewrite <- skipn_skipn.
  apply firstn_skipn.
Qed.

Lemma startsWith_length (s p : jsstring) :
  startsWith s p = true -> (length p <= length s)%nat.
Proof.
  revert s; induction p as [|x p IH]; intros s H; simpl in *; [lia|].
  destruct s as [|y s]; [discriminate|].
  apply andb_true_iff in H as [_ H].
  specialize (IH _ H); simpl; lia.
Qed.

Lemma startsWith_app (s p : jsstring) :
  startsWith s p = true <-> exists post, s = p ++ post.
Proof.
  revert s; induction p as [|x p IH]; intros s; simpl.
  - split; [intros _; exists s; reflexivity | intros _; reflexivity].
  - destruct s as [|y s].
    + split; [discriminate | intros [post H]; discriminate].
    + rewrite andb_true_iff, N.eqb_eq, IH.
      split.
      * intros [-> [post ->]]; exists post; reflexivity.
      * intros [post H]; injection H as -> ->.
        split; [reflexivity | exists post; reflexivity].
Qed.

(** An occurrence of a non-empty pattern lies inside the string. *)
Lemma matchAt_bound (s p : jsstring) (k : nat) :
  p <> [] -> matchAt s k p = true -> Z.of_nat k + len p <= len s.
Proof.
  unfold matchAt; intros Hp H.
  apply startsWith_length in H.
  rewrite length_skipn in H.
  destruct p as [|x p]; [congruence|].
  unfold len; simpl in *; lia.
Qed.

(** ** [lastIndexOf] *)

Lemma lastIndexFrom_found (s p : jsstring) (k : nat) :
  lastIndexFrom s p k = -1 \/
  (0 <= lastIndexFrom s p k <= Z.of_nat k /\
   matchAt s (Z.to_nat (lastIndexFrom s p k)) p = true).
Proof.
  induction k as [|k IH]; cbn [lastIndexFrom].
  - destruct (matchAt s 0 p) eqn:E; [right | left; reflexivity].
    split; [lia | exact E].
  - destruct (matchAt s (S k) p) eqn:E.
    + right; split; [lia|].
      rewrite Nat2Z.id; exact E.
    + destruct IH as [IH | [IH1 IH2]]; [left; exact IH | right].
      split; [lia | exact IH2].
Qed.

(** The search returns the last occurrence at or before its start. *)
Lemma lastIndexFrom_last (s p : jsstring) (k j : nat) :
  (j <= k)%nat -> matchAt s j p = true ->
  Z.of_nat j <= lastIndexFrom s p k.
Proof.
  induction k as [|k IH]; intros Hj Hm; cbn [lastIndexFrom].
  - replace j with 0%nat in Hm by lia.
    rewrite Hm; lia.
  - destruct (matchAt s (S k) p) eqn:E; [lia|].
    apply IH; [|exact Hm].
    destruct (Nat.eq_dec j (S k)) as [->|]; [congruence | lia].
Qed.

Lemma lastIndexOf_found (s p : jsstring) (pos : Z) :
  p <> [] ->
  lastIndexOf s p pos = -1 \/
  (0 <= lastIndexOf s p pos <= Z.max pos 0 /\
   lastIndexOf s p pos + len p <= len s /\
   matchAt s (Z.to_nat (lastIndexOf s p pos)) p = true).
Proof.
  intros Hp; unfold lastIndexOf.
  destruct (Z.ltb_spec (len s) (len p)) as [Hlt|Hge]; [left; reflexivity|].
  set (k := Z.to_nat (Z.min (Z.max pos 0) (len s - len p))).
  destruct (lastIndexFrom_found s p k) as [E | [Hr Hm]];
    [left; exact E | right].
  split; [lia|].
  split; [|exact Hm].
  apply (matchAt_bound _ _ _ Hp) in Hm.
  lia.
Qed.

(** An occurrence at or before [pos] is never after the index returned. *)
Lemma lastIndexOf_last (s p : jsstring) (pos : Z) (j : nat) :
  p <> [] -> Z.of_nat j <= pos -> matchAt s j p = true ->
  Z.of_nat j <= lastIndexOf s p pos.
Proof.
  intros Hp Hj Hm; unfold lastIndexOf.
  pose proof (matchAt_bound _ _ _ Hp Hm) as Hb.
  destruct (Z.ltb_spec (len s) (len p)) as [Hlt|Hge]; [lia|].
  apply lastIndexFrom_last; [lia | exact Hm].
Qed.

(** ** One iteration of the chunker *)

Lemma splitPoints_nonempty (p : jsstring) : In p splitPoints -> p <> [].
Proof.
  unfold splitPoints; simpl.
  intros [<-|[<-|[<-|[<-|[<-|[]]]]]]; discriminate.
Qed.

Lemma splitPoints_len (p : jsstring) : In p splitPoints -> 1 <= len p <= 2.
Proof.
  unfold splitPoints; simpl.
  intros [<-|[<-|[<-|[<-|[<-|[]]]]]]; unfold len; simpl; lia.
Qed.

(** What a successful search of the split-point loop returns. *)
Lemma findSplit_some (text : jsstring) (start end_ : Z) (points : list jsstring)
    (e : Z) :
  (forall p, In p points -> p <> []) ->
  0 <= start ->
  findSplit text start end_ points = Some e ->
  exists p,
    In p points /\
    start < lastIndexOf text p end_ < end_ /\
    e = lastIndexOf text p end_ + len p /\
    e <= len text /\
    matchAt text (Z.to_nat (lastIndexOf text p end_)) p = true.
Proof.
  induction points as [|q points IH]; intros Hne Hs H; cbn [findSplit] in H;
    [discriminate|].
  destruct ((start <? lastIndexOf text q end_) &&
            (lastIndexOf text q end_ <? end_)) eqn:E.
  - injection H as <-.
    apply andb_true_iff in E as [E1 E2].
    apply Z.ltb_lt in E1, E2.
    exists q; split; [left; reflexivity|].
    destruct (lastIndexOf_found text q end_ (Hne q (or_introl eq_refl)))
      as [Hm | (Hr & Hb & Hm)]; [lia|].
    repeat split; try lia; exact Hm.
  - destruct (IH (fun p Hp => Hne p (or_intror Hp)) Hs H) as (p & Hp & Hrest).
    exists p; split; [right; exact Hp | exact Hrest].
Qed.

(** Past the cursor and short of the end of the text, the chunk end is
    strictly after the cursor, inside the text, and at most one code unit
    past the budget. *)
Lemma chooseEnd_range (text : jsstring) (start maxLength : Z) :
  1 <= maxLength -> 0 <= start -> start + maxLength < len text ->
  start < chooseEnd text start maxLength <= start + maxLength + 1 /\
  chooseEnd text start maxLength <= len text.
Proof.
  intros HL Hs Hlong; unfold chooseEnd.
  destruct (findSplit text start (start + maxLength) splitPoints) as [e|] eqn:E;
    [|lia].
  destruct (findSplit_some _ _ _ _ _ splitPoints_nonempty Hs E)
    as (p & Hp & Hk & -> & Hb & _).
  pose proof (splitPoints_len p Hp); lia.
Qed.

(** ** The loop as a relation

    [Cuts text maxLength start chunks]: from the cursor [start], the loop
    pushes exactly [chunks], in this order, and stops. *)

Inductive Cuts (text : jsstring) (maxLength : Z) : Z -> list jsstring -> Prop :=
| Cuts_done start :
    len text <= start ->
    Cuts text maxLength start []
| Cuts_last start :
    start < len text ->
    len text - start <= maxLength ->
    Cuts text maxLength start [sliceFrom text start]
| Cuts_step start chunks :
    start < len text ->
    maxLength < len text - start ->
    Cuts text maxLength (chooseEnd text start maxLength) chunks ->
    Cuts text maxLength start
         (slice text start (chooseEnd text start maxLength) :: chunks).

(** With a positive budget the loop returns, within [fuel] iterations
    whenever [fuel] exceeds the text left, and what it returns is what
    [Cuts] describes. *)
Lemma splitLoop_cuts (text : jsstring) (maxLength : Z) :
  1 <= maxLength ->
  forall (fuel : nat) (start : Z) (acc : list jsstring),
    0 <= start <= len text ->
    len text - start < Z.of_nat fuel ->
    exists chunks,
      splitLoop fuel text maxLength start acc = Some (acc ++ chunks) /\
      Cuts text maxLength start chunks.
Proof.
  intros HL; induction fuel as [|fuel IH]; intros start acc Hs Hf.
  - lia.
  - cbn [splitLoop].
    destruct (Z.ltb_spec start (len text)) as [Hin|Hout].
    + destruct (Z.leb_spec (len text - start) maxLength) as [Hshort|Hlong].
      * exists [sliceFrom text start]; split; [reflexivity|].
        apply Cuts_last; assumption.
      * destruct (chooseEnd_range text start maxLength HL) as [He Hb];
          [lia | lia |].
        destruct (IH (chooseEnd text start maxLength)
                     (acc ++ [slice text start (chooseEnd text start maxLength)]))
          as (chunks & Hrun & Hcuts); [lia | lia |].
        exists (slice text start (chooseEnd text start maxLength) :: chunks).
        split; [|apply Cuts_step; assumption].
        rewrite Hrun, <- app_assoc; reflexivity.
    + exists []; split; [rewrite app_nil_r; reflexivity|].
      apply Cuts_done; lia.
Qed.

Lemma splitTextSafe_cuts (text : jsstring) (maxLength : Z) :
  1 <= maxLength ->
  exists chunks,
    splitTextSafe text maxLength = Some chunks /\ Cuts text maxLength 0 chunks.
Proof.
  intros HL; unfold splitTextSafe.
  destruct (splitLoop_cuts text maxLength HL (S (length text)) 0 [])
    as (chunks & Hrun & Hcuts); [unfold len; lia | unfold len; lia |].
  exists chunks; split; [exact Hrun | exact Hcuts].
Qed.

(** [Cuts] is a function of the cursor: the loop has one run. *)
Lemma Cuts_functional (text : jsstring) (maxLength start : Z)
    (chunks chunks' : list jsstring) :
  Cuts text maxLength start chunks ->
  Cuts text maxLength start chunks' ->
  chunks = chunks'.
Proof.
  intros H; revert chunks'.
  induction H as [start Hd | start Hin Hs | start chunks Hin Hl H IH];
    intros chunks' H'; inversion H'; subst; try lia; try reflexivity.
  f_equal; apply IH; assumption.
Qed.

(** More iterations than the text has code units change nothing. *)
Lemma splitLoop_enough_fuel (text : jsstring) (maxLength : Z) (fuel : nat) :
  1 <= maxLength -> (length text < fuel)%nat ->
  splitLoop fuel text maxLength 0 [] = splitTextSafe text maxLength.
Proof.
  intros HL Hf.
  destruct (splitTextSafe_cuts text maxLength HL) as (cs & -> & Hcs).
  destruct (splitLoop_cuts text maxLength HL fuel 0 [])
    as (cs' & Hrun & Hcs'); [unfold len; lia | unfold len; lia |].
  rewrite Hrun; simpl.
  f_equal; eapply Cuts_functional; eassumption.
Qed.

(** The chunks pushed from a cursor make up the text from that cursor. *)
Lemma Cuts_concat (text : jsstring) (maxLength start : Z)
    (chunks : list jsstring) :
  1 <= maxLength -> 0 <= start ->
  Cuts text maxLength start chunks ->
  concat chunks = skipn (Z.to_nat start) text.
Proof.
  intros HL Hs H.
  induction H as [start Hd | start Hin Hshort | start chunks Hin Hlong H IH].
  - symmetry; apply skipn_all2; unfold len in Hd; lia.
  - simpl; rewrite app_nil_r.
    apply sliceFrom_inside; lia.
  - destruct (chooseEnd_range text start maxLength HL Hs) as [He Hb]; [lia|].
    simpl; rewrite IH by lia.
    apply slice_then_rest; lia.
Qed.

(** A window that ends at or before the cursor holds no split point. *)
Lemma findSplit_empty_window (text : jsstring) (start end_ : Z)
    (points : list jsstring) :
  end_ <= start -> findSplit text start end_ points = None.
Proof.
  intros He; induction points as [|p points IH]; cbn [findSplit];
    [reflexivity|].
  destruct (Z.ltb_spec start (lastIndexOf text p end_));
    destruct (Z.ltb_spec (lastIndexOf text p end_) end_);
    simpl; try exact IH; lia.
Qed.

(** Without a positive budget the cursor never moves forward, and the loop
    is still running after any number of iterations. *)
Lemma splitLoop_stuck (text : jsstring) (maxLength : Z) :
  maxLength <= 0 -> text <> [] ->
  forall (fuel : nat) (start : Z) (acc : list jsstring),
    start <= 0 -> splitLoop fuel text maxLength start acc = None.
Proof.
  intros HL Hne.
  assert (0 < len text) as Hpos
    by (destruct text; [congruence | unfold len; simpl; lia]).
  induction fuel as [|fuel IH]; intros start acc Hs; cbn [splitLoop];
    [reflexivity|].
  destruct (Z.ltb_spec start (len text)); [|lia].
  destruct (Z.leb_spec (len text - start) maxLength); [lia|].
  apply IH.
  unfold chooseEnd.
  rewrite findSplit_empty_window by lia; lia.
Qed.

(** ** C1: chunk reconstruction *)

(** C1.  For every string [text] and every integer budget
    [maxLength >= 1], [splitTextSafe] returns, and concatenating the
    chunks it returns, in order, gives back exactly [text]. *)
Theorem splitTextSafe_reconstructs (text : jsstring) (maxLength : Z) :
  1 <= maxLength ->
  exists chunks,
    splitTextSafe text maxLength = Some chunks /\ concat chunks = text.
Proof.
  intros HL.
  destruct (splitTextSafe_cuts text maxLength HL) as (chunks & Hrun & Hcuts).
  exists chunks; split; [exact Hrun|].
  apply (Cuts_concat text maxLength 0 chunks HL (Z.le_refl 0) Hcuts).
Qed.

Lemma splitTextSafe_reconstructs_witness :
  exists chunks,
    splitTextSafe (lit "One. Two three? Four five six! Seven") 7 = Some chunks /\
    concat chunks = lit "One. Two three? Four five six! Seven".
Proof.
  apply (splitTextSafe_reconstructs
           (lit "One. Two three? Four five six! Seven") 7).
  lia.
Defined.

(** ** C9: termination *)

(** C9.  With [maxLength >= 1] the loop of [splitTextSafe] returns for
    every text, since every iteration that pushes a chunk and continues
    puts the chunk end, found at a split point or by the hard split,
    strictly after the cursor; running it longer changes nothing.  With
    [maxLength <= 0] and a non-empty text it never returns. *)
Theorem splitTextSafe_terminates (text : jsstring) (maxLength : Z) :
  (1 <= maxLength ->
     (exists chunks, splitTextSafe text maxLength = Some chunks) /\
     (forall start, 0 <= start -> maxLength < len text - start ->
        start < chooseEnd text start maxLength) /\
     (forall fuel, (length text < fuel)%nat ->
        splitLoop fuel text maxLength 0 [] = splitTextSafe text maxLength)) /\
  (maxLength <= 0 -> text <> [] ->
     forall fuel, splitLoop fuel text maxLength 0 [] = None).
Proof.
  split.
  - intros HL; split; [|split].
    + destruct (splitTextSafe_cuts text maxLength HL) as (chunks & Hrun & _).
      exists chunks; exact Hrun.
    + intros start Hs Hlong.
      apply (chooseEnd_range text start maxLength HL Hs); lia.
    + intros fuel Hf; apply splitLoop_enough_fuel; assumption.
  - intros HL Hne fuel.
    apply splitLoop_stuck; [assumption | assumption | lia].
Qed.

Lemma splitTextSafe_terminates_witness :
  (exists chunks,
     splitTextSafe (lit "no boundary,here") 5 = Some chunks) /\
  (forall fuel, splitLoop fuel (lit "x") 0 0 [] = None).
Proof.
  pose proof (splitTextSafe_terminates (lit "no boundary,here") 5) as [H5 _].
  pose proof (splitTextSafe_terminates (lit "x") 0) as [_ H0].
  split.
  - apply H5; lia.
  - apply H0; [lia | discriminate].
Defined.

(** ** The shape of a chunk *)

Lemma slice_app (s : jsstring) (a b c : Z) :
  0 <= a <= b -> b <= c <= len s ->
  slice s a b ++ slice s b c = slice s a c.
Proof.
  intros Hab Hbc.
  pose proof (len_slice s a b Hab ltac:(lia)) as Hlen; unfold len in Hlen.
  rewrite (slice_inside s a c) by lia.
  rewrite <- (slice_then_rest s a b) by lia.
  rewrite firstn_app.
  rewrite (@firstn_all2 _ _ (slice s a b)) by lia.
  f_equal.
  rewrite (slice_inside s b c) by lia.
  f_equal; lia.
Qed.

(** The slice that covers an occurrence of a pattern is the pattern. *)
Lemma slice_occurrence (s p : jsstring) (k : nat) :
  p <> [] -> matchAt s k p = true ->
  slice s (Z.of_nat k) (Z.of_nat k + len p) = p.
Proof.
  intros Hp Hm.
  pose proof (matchAt_bound s p k Hp Hm) as Hb.
  pose proof (len_nonneg p).
  rewrite slice_inside by lia.
  unfold matchAt in Hm; apply startsWith_app in Hm as [post Hpost].
  rewrite Nat2Z.id, Hpost.
  replace (Z.to_nat (Z.of_nat k + len p - Z.of_nat k)) with (length p + 0)%nat
    by (unfold len; lia).
  rewrite firstn_app_2; simpl; apply app_nil_r.
Qed.

Lemma matchAt_includes (s p : jsstring) (k : nat) :
  matchAt s k p = true -> includes s p = true.
Proof.
  unfold matchAt; revert s; induction k as [|k IH]; intros s H.
  - destruct s; simpl in *; rewrite H; reflexivity.
  - destruct s as [|x s]; simpl in *.
    + rewrite H; reflexivity.
    + rewrite (IH s H); apply orb_true_r.
Qed.

Lemma includes_app (s p : jsstring) :
  includes s p = true <-> exists pre post, s = pre ++ p ++ post.
Proof.
  induction s as [|x s IH]; simpl.
  - rewrite orb_false_r, startsWith_app; split.
    + intros [post H]; exists [], post; exact H.
    + intros (pre & post & H).
      destruct pre; [exists post; exact H | discriminate].
  - rewrite orb_true_iff, startsWith_app, IH; split.
    + intros [[post H] | (pre & post & H)].
      * exists [], post; exact H.
      * exists (x :: pre), post; rewrite H; reflexivity.
    + intros (pre & post & H).
      destruct pre as [|y pre]; [left; exists post; exact H | right].
      injection H as _ H; exists pre, post; exact H.
Qed.

Lemma sentencePoints_split (p : jsstring) :
  In p sentencePoints -> In p splitPoints /\ len p = 2.
Proof.
  unfold sentencePoints, splitPoints; simpl.
  intros [<-|[<-|[<-|[<-|[]]]]]; split; auto 6.
Qed.

Lemma splitPoints_pair (p : jsstring) :
  In p splitPoints -> len p = 2 -> In p sentencePoints.
Proof.
  unfold sentencePoints, splitPoints; simpl.
  intros [<-|[<-|[<-|[<-|[<-|[]]]]]] H; auto 6.
  discriminate.
Qed.

(** The two ways an iteration ends a chunk: the hard split, when no split
    point qualifies, or right after the first qualifying split point. *)
Lemma chooseEnd_cases (text : jsstring) (start maxLength : Z) :
  0 <= start ->
  (findSplit text start (start + maxLength) splitPoints = None /\
   chooseEnd text start maxLength = start + maxLength) \/
  (exists p,
     In p splitPoints /\
     start < lastIndexOf text p (start + maxLength) < start + maxLength /\
     chooseEnd text start maxLength =
       lastIndexOf text p (start + maxLength) + len p /\
     chooseEnd text start maxLength <= len text /\
     slice text start (chooseEnd text start maxLength) =
       slice text start (lastIndexOf text p (start + maxLength)) ++ p).
Proof.
  intros Hs; unfold chooseEnd.
  destruct (findSplit text start (start + maxLength) splitPoints) as [e|] eqn:E;
    [right | left; split; reflexivity].
  destruct (findSplit_some _ _ _ _ _ splitPoints_nonempty Hs E)
    as (p & Hp & Hk & He & Hb & Hm).
  exists p; repeat split; try assumption; try lia.
  pose proof (splitPoints_len p Hp) as Hlen.
  set (k := lastIndexOf text p (start + maxLength)) in *.
  rewrite He, <- (slice_app text start k (k + len p)) by lia.
  f_equal.
  pose proof (slice_occurrence text p (Z.to_nat k)
                (splitPoints_nonempty p Hp) Hm) as Hocc.
  rewrite Z2Nat.id in Hocc by lia; exact Hocc.
Qed.

(** A property of the final chunk and of every chunk an iteration pushes
    is a property of all chunks. *)
Lemma Cuts_Forall (text : jsstring) (maxLength : Z) (P : jsstring -> Prop) :
  1 <= maxLength ->
  (forall start, 0 <= start < len text -> len text - start <= maxLength ->
     P (sliceFrom text start)) ->
  (forall start, 0 <= start -> maxLength < len text - start ->
     P (slice text start (chooseEnd text start maxLength))) ->
  forall start chunks,
    0 <= start -> Cuts text maxLength start chunks -> Forall P chunks.
Proof.
  intros HL Hlast Hstep start chunks Hs H.
  induction H as [start Hd | start Hin Hshort | start chunks Hin Hlong H IH].
  - constructor.
  - constructor; [apply Hlast; lia | constructor].
  - destruct (chooseEnd_range text start maxLength HL Hs) as [He Hb]; [lia|].
    constructor; [apply Hstep; lia | apply IH; lia].
Qed.

(** Every chunk is non-empty, and a chunk over the budget is over it by
    one code unit and ends with a two-character split point. *)
Lemma Cuts_chunk_shape (text : jsstring) (maxLength start : Z)
    (chunks : list jsstring) :
  1 <= maxLength -> 0 <= start ->
  Cuts text maxLength start chunks ->
  Forall (fun c => 0 < len c <= maxLength + 1 /\
                   (len c <= maxLength \/ endsWithPair c)) chunks.
Proof.
  intros HL Hs H.
  apply (Cuts_Forall text maxLength _ HL) with (start := start);
    try assumption; clear start chunks Hs H.
  - intros start Hs Hshort.
    rewrite sliceFrom_inside by lia.
    unfold len in *; rewrite length_skipn; lia.
  - intros start Hs Hlong.
    destruct (chooseEnd_range text start maxLength HL Hs) as [He Hb]; [lia|].
    rewrite len_slice by lia.
    split; [lia|].
    destruct (Z.le_gt_cases (chooseEnd text start maxLength - start) maxLength)
      as [Hle|Hgt]; [left; exact Hle | right].
    destruct (chooseEnd_cases text start maxLength Hs)
      as [[_ Hhard] | (p & Hp & Hk & Hend & _ & Hshape)]; [lia|].
    pose proof (splitPoints_len p Hp) as Hlen.
    exists (slice text start (lastIndexOf text p (start + maxLength))), p.
    split; [apply splitPoints_pair; [exact Hp | lia] | exact Hshape].
Qed.

(** ** Texts without a split point *)

Lemma hasMarker_false (text p : jsstring) :
  hasMarker text = false -> In p splitPoints -> includes text p = false.
Proof.
  intros H Hp.
  destruct (includes text p) eqn:E; [|reflexivity].
  assert (hasMarker text = true) as Ht
    by (apply existsb_exists; exists p; split; assumption).
  congruence.
Qed.

Lemma findSplit_marker_free (text : jsstring) (start end_ : Z) :
  hasMarker text = false -> 0 <= start ->
  findSplit text start end_ splitPoints = None.
Proof.
  intros Hfree Hs.
  destruct (findSplit text start end_ splitPoints) as [e|] eqn:E;
    [|reflexivity].
  destruct (findSplit_some _ _ _ _ _ splitPoints_nonempty Hs E)
    as (p & Hp & _ & _ & _ & Hm).
  apply matchAt_includes in Hm.
  rewrite (hasMarker_false text p Hfree Hp) in Hm; discriminate.
Qed.

Lemma ceil_one (n d : Z) : 0 < n <= d -> (n + d - 1) / d = 1.
Proof.
  intros H.
  replace (n + d - 1) with (1 * d + (n - 1)) by lia.
  rewrite Z.div_add_l by lia.
  rewrite Z.div_small by lia; lia.
Qed.

Lemma ceil_step (n d : Z) : 0 < d -> (n + d - 1) / d = 1 + (n - d + d - 1) / d.
Proof.
  intros H.
  replace (n + d - 1) with (1 * d + (n - d + d - 1)) by lia.
  rewrite Z.div_add_l by lia; reflexivity.
Qed.

(** A text without a split point is cut by hard splits only: every chunk
    but the last has exactly [maxLength] code units, none has more, and
    their number is the rounded-up quotient. *)
Lemma Cuts_marker_free (text : jsstring) (maxLength start : Z)
    (chunks : list jsstring) :
  1 <= maxLength -> hasMarker text = false -> 0 <= start <= len text ->
  Cuts text maxLength start chunks ->
  Forall (fun c => len c <= maxLength) chunks /\
  Forall (fun c => len c = maxLength) (removelast chunks) /\
  Z.of_nat (length chunks) = (len text - start + maxLength - 1) / maxLength.
Proof.
  intros HL Hfree Hs H.
  induction H as [start Hd | start Hin Hshort | start chunks Hin Hlong H IH].
  - repeat split; try constructor.
    replace (len text - start) with 0 by lia.
    simpl; rewrite Z.div_small by lia; reflexivity.
  - assert (len (sliceFrom text start) = len text - start) as Hlen.
    { rewrite sliceFrom_inside by lia.
      unfold len; rewrite length_skipn; unfold len in *; lia. }
    repeat split; try (constructor; [lia | constructor]); try constructor.
    simpl length; rewrite ceil_one by lia; reflexivity.
  - assert (chooseEnd text start maxLength = start + maxLength) as He
      by (unfold chooseEnd; rewrite findSplit_marker_free by (assumption || lia);
          reflexivity).
    rewrite He in *.
    destruct IH as (IH1 & IH2 & IH3); [lia|].
    assert (len (slice text start (start + maxLength)) = maxLength) as Hlen
      by (rewrite len_slice by lia; lia).
    split; [constructor; [lia | exact IH1]|].
    split.
    + destruct chunks as [|c chunks]; [constructor|].
      change (removelast (slice text start (start + maxLength) :: c :: chunks))
        with (slice text start (start + maxLength) :: removelast (c :: chunks)).
      constructor; [exact Hlen | exact IH2].
    + rewrite (ceil_step (len text - start)) by lia.
      replace (len text - start - maxLength) with (len text - (start + maxLength))
        by lia.
      rewrite <- IH3; simpl length; lia.
Qed.

Lemma concat_len_lower (chunks : list jsstring) :
  Forall (fun c => 0 < len c) chunks ->
  Z.of_nat (length chunks) <= len (concat chunks).
Proof.
  induction 1 as [|c chunks Hc _ IH]; simpl; [unfold len; simpl; lia|].
  rewrite len_app; lia.
Qed.

Lemma concat_len_upper (chunks : list jsstring) (maxLength : Z) :
  Forall (fun c => len c <= maxLength) chunks ->
  len (concat chunks) <= maxLength * Z.of_nat (length chunks).
Proof.
  induction 1 as [|c chunks Hc _ IH]; simpl; [unfold len; simpl; lia|].
  rewrite len_app; lia.
Qed.

(** ** C2: the chunk bound *)

(** C2, as the design document words it, fails, in both of its parts.  A
    run of non-boundary characters longer than the budget is not returned
    whole: ["aaaa"] with budget 3 comes back as ["aaa"] and ["a"].  And a
    chunk that is not such a run can exceed the budget: ["ab. cd"] with
    budget 3 comes back as ["ab. "] and ["cd"]. *)
Lemma spec_chunk_bound_fails :
  ~ spec_chunk_bound (lit "aaaa") 3 /\ ~ spec_chunk_bound (lit "ab. cd") 3.
Proof.
  split.
  - intros (chunks & Hrun & _ & Hwhole).
    vm_compute in Hrun; injection Hrun as <-.
    specialize (Hwhole eq_refl eq_refl).
    discriminate Hwhole.
  - intros (chunks & Hrun & Hbound & _).
    vm_compute in Hrun; injection Hrun as <-.
    inversion Hbound as [|c rest [Hle | [Hfree _]] _]; subst.
    + vm_compute in Hle; apply Hle; reflexivity.
    + vm_compute in Hfree; discriminate Hfree.
Qed.

(** C2, amended.  For every text and every budget [maxLength >= 1],
    every chunk is non-empty and every chunk that does not end with one
    of the two-character split points has at most [maxLength] code units.
    A text that holds no split point is cut by hard splits: no chunk has
    more than [maxLength] code units and every chunk but the last has
    exactly [maxLength], so a long run is never returned whole. *)
Theorem splitTextSafe_chunk_bound (text : jsstring) (maxLength : Z) :
  1 <= maxLength ->
  exists chunks,
    splitTextSafe text maxLength = Some chunks /\
    Forall (fun c => 0 < len c /\ (~ endsWithPair c -> len c <= maxLength))
           chunks /\
    (hasMarker text = false ->
       Forall (fun c => len c <= maxLength) chunks /\
       Forall (fun c => len c = maxLength) (removelast chunks)).
Proof.
  intros HL.
  destruct (splitTextSafe_cuts text maxLength HL) as (chunks & Hrun & Hcuts).
  exists chunks; split; [exact Hrun|]; split.
  - pose proof (Cuts_chunk_shape text maxLength 0 chunks HL (Z.le_refl 0) Hcuts)
      as Hshape.
    eapply Forall_impl; [|exact Hshape].
    intros c [Hlen [Hle | Hpair]]; (split; [lia|]); intros Hnot;
      [exact Hle | contradiction].
  - intros Hfree.
    destruct (Cuts_marker_free text maxLength 0 chunks HL Hfree) as (H1 & H2 & _);
      [pose proof (len_nonneg text); lia | exact Hcuts |].
    split; assumption.
Qed.

Lemma splitTextSafe_chunk_bound_witness :
  exists chunks,
    splitTextSafe (lit "aaaa") 3 = Some chunks /\
    Forall (fun c => 0 < len c /\ (~ endsWithPair c -> len c <= 3)) chunks /\
    (hasMarker (lit "aaaa") = false ->
       Forall (fun c => len c <= 3) chunks /\
       Forall (fun c => len c = 3) (removelast chunks)).
Proof.
  apply (splitTextSafe_chunk_bound (lit "aaaa") 3).
  lia.
Defined.

(** The budget can be exceeded: a two-character split point that starts
    on the last position of the budget is accepted, and the chunk ends one
    code unit past the budget. *)
Example splitTextSafe_overshoot :
  splitTextSafe (lit "ab. cd") 3 = Some [lit "ab. "; lit "cd"] /\
  len (lit "ab. ") = 4 /\
  hasMarker (lit "ab. ") = true.
Proof. vm_compute; repeat split. Qed.

(** ** C5: preference order *)

(** The split-point loop stops at the first point of its list whose last
    occurrence qualifies; the points after it are not looked at. *)
Lemma findSplit_first (text : jsstring) (start end_ : Z)
    (points later : list jsstring) (p : jsstring) :
  In p points ->
  start < lastIndexOf text p end_ < end_ ->
  exists q,
    In q points /\
    start < lastIndexOf text q end_ < end_ /\
    findSplit text start end_ (points ++ later) =
      Some (lastIndexOf text q end_ + len q).
Proof.
  induction points as [|r points IH]; intros Hp Hk; [contradiction|].
  cbn [app findSplit].
  destruct (Z.ltb_spec start (lastIndexOf text r end_)) as [H1|H1];
    destruct (Z.ltb_spec (lastIndexOf text r end_) end_) as [H2|H2];
    cbn [andb];
    try (exists r; split; [left; reflexivity | split; [lia | reflexivity]]);
    (destruct Hp as [-> | Hp]; [lia|]);
    destruct (IH Hp Hk) as (q & Hq & Hkq & Hrun);
    exists q; (split; [right; exact Hq | split; [exact Hkq | exact Hrun]]).
Qed.

(** C5, as the design document words it, fails.  In ["A. bb cc. dd"] with
    budget 8 the sentence boundary at index 1 lies after the cursor and
    before the candidate end 8, yet the cut is made after the bare space
    at index 5: the last [". "] at or before the candidate end starts at
    the candidate end itself, so [". "] is passed over.  In ["ab cd. ef"]
    with budget 5 the only [". "] starts at the candidate end, and the cut
    is made after the bare space at index 2. *)
Lemma spec_preference_fails :
  ~ spec_preference (lit "A. bb cc. dd") 0 8 /\
  ~ spec_preference (lit "ab cd. ef") 0 5.
Proof.
  split; intros H.
  - destruct (H [DOT; SPACE] 1) as (q & j & Hq & Hm & Hj & He);
      [left; reflexivity | reflexivity | lia |].
    assert (chooseEnd (lit "A. bb cc. dd") 0 8 = 6) as Hcut by reflexivity.
    rewrite Hcut in He.
    destruct (sentencePoints_split q Hq) as [_ Hlen].
    assert (j = 4) by lia; subst j.
    unfold sentencePoints in Hq; simpl in Hq.
    destruct Hq as [<-|[<-|[<-|[<-|[]]]]]; vm_compute in Hm; discriminate Hm.
  - destruct (H [DOT; SPACE] 5) as (q & j & Hq & Hm & Hj & He);
      [left; reflexivity | reflexivity | lia |].
    assert (chooseEnd (lit "ab cd. ef") 0 5 = 3) as Hcut by reflexivity.
    rewrite Hcut in He.
    destruct (sentencePoints_split q Hq) as [_ Hlen].
    assert (j = 1) by lia; subst j.
    unfold sentencePoints in Hq; simpl in Hq.
    destruct Hq as [<-|[<-|[<-|[<-|[]]]]]; vm_compute in Hm; discriminate Hm.
Qed.

(** The guard of the split-point loop, for one split point:
    [lastPointIndex > start && lastPointIndex < end]. *)
Definition qualifies (text : jsstring) (start end_ : Z) (p : jsstring)
  : Prop :=
  start < lastIndexOf text p end_ < end_.

(** The cursor at which chunk [k] starts: the length of the chunks
    before it. *)
Definition cursorAt (chunks : list jsstring) (k : nat) : Z :=
  len (concat (firstn k chunks)).

(** The loop returns the point at position [i] of its list when that one
    qualifies and none before it does. *)
Lemma findSplit_nth (text : jsstring) (start end_ : Z)
    (points : list jsstring) :
  forall (i : nat) (p : jsstring),
    nth_error points i = Some p ->
    qualifies text start end_ p ->
    (forall j q, (j < i)%nat -> nth_error points j = Some q ->
                 ~ qualifies text start end_ q) ->
    findSplit text start end_ points = Some (lastIndexOf text p end_ + len p).
Proof.
  unfold qualifies.
  induction points as [|r points IH]; intros i p Hi Hp Hbefore.
  - destruct i; discriminate Hi.
  - cbn [findSplit].
    destruct i as [|i].
    + injection Hi as ->.
      destruct (Z.ltb_spec start (lastIndexOf text p end_)); [|lia].
      destruct (Z.ltb_spec (lastIndexOf text p end_) end_); [|lia].
      reflexivity.
    + assert (~ (start < lastIndexOf text r end_ < end_)) as Hr
        by (apply (Hbefore 0%nat r); [lia | reflexivity]).
      destruct (Z.ltb_spec start (lastIndexOf text r end_));
        destruct (Z.ltb_spec (lastIndexOf text r end_) end_);
        cbn [andb]; try lia;
        (apply (IH i p Hi Hp); intros j q Hj Hq;
         apply (Hbefore (S j) q); [lia | exact Hq]).
Qed.

(** [foundSplit] stays false when no point of the list qualifies. *)
Lemma findSplit_none (text : jsstring) (start end_ : Z)
    (points : list jsstring) :
  (forall q, In q points -> ~ qualifies text start end_ q) ->
  findSplit text start end_ points = None.
Proof.
  unfold qualifies.
  induction points as [|r points IH]; intros Hnone; [reflexivity|].
  cbn [findSplit].
  pose proof (Hnone r (or_introl eq_refl)) as Hr.
  destruct (Z.ltb_spec start (lastIndexOf text r end_));
    destruct (Z.ltb_spec (lastIndexOf text r end_) end_);
    cbn [andb]; try lia;
    (apply IH; intros q Hq; apply Hnone; right; exact Hq).
Qed.

(** Each chunk of a run is the slice from its cursor to the end chosen
    there, or the rest of the text once that fits the budget. *)
Lemma Cuts_chunks (text : jsstring) (maxLength start : Z)
    (chunks : list jsstring) :
  1 <= maxLength -> 0 <= start ->
  Cuts text maxLength start chunks ->
  forall (k : nat) (c : jsstring),
    nth_error chunks k = Some c ->
    c = if maxLength <? len text - (start + cursorAt chunks k)
        then slice text (start + cursorAt chunks k)
                   (chooseEnd text (start + cursorAt chunks k) maxLength)
        else sliceFrom text (start + cursorAt chunks k).
Proof.
  intros HL Hs H.
  induction H as [start Hd | start Hin Hshort | start chunks Hin Hlong H IH];
    intros k c Hk.
  - destruct k; discriminate Hk.
  - destruct k as [|k]; [|destruct k; discriminate Hk].
    injection Hk as <-.
    unfold cursorAt; cbn [firstn concat]; change (len []) with 0.
    rewrite Z.add_0_r.
    destruct (Z.ltb_spec maxLength (len text - start)); [lia | reflexivity].
  - destruct (chooseEnd_range text start maxLength HL Hs) as [He Hb]; [lia|].
    destruct k as [|k].
    + injection Hk as <-.
      unfold cursorAt; cbn [firstn concat]; change (len []) with 0.
      rewrite Z.add_0_r.
      destruct (Z.ltb_spec maxLength (len text - start)); [reflexivity | lia].
    + cbn [nth_error] in Hk.
      assert (0 <= chooseEnd text start maxLength) as Hs' by lia.
      specialize (IH Hs' k c Hk).
      assert (start + cursorAt (slice text start (chooseEnd text start maxLength)
                                  :: chunks) (S k)
              = chooseEnd text start maxLength + cursorAt chunks k) as Hc.
      { unfold cursorAt; cbn [firstn concat].
        rewrite len_app, len_slice by lia; lia. }
      rewrite Hc; exact IH.
Qed.

(** C5, amended.  Every chunk but the last runs from its cursor to the
    end chosen there.  The split points are tried in the order [". "],
    ["? "], ["! "], [".\n"], [" "], each at its last occurrence that
    starts at or before the candidate end (the greatest such index, or
    [-1] when there is none), and the cut is made right after the first
    one in that order whose occurrence lies strictly after the cursor and
    strictly before the candidate end; when none does, the cut is the
    hard split at the candidate end.  Hence, when a sentence-ending point
    has such an occurrence, the cut is made right after a sentence-ending
    point, whatever bare spaces lie closer to the candidate end.  In
    particular ["Hello world. Next sentence here"] with budget 20 gives
    ["Hello world. "] and ["Next sentence here"]. *)
Theorem splitTextSafe_preference :
  (forall text maxLength chunks k c,
     1 <= maxLength ->
     splitTextSafe text maxLength = Some chunks ->
     nth_error chunks k = Some c ->
     c = if maxLength <? len text - cursorAt chunks k
         then slice text (cursorAt chunks k)
                    (chooseEnd text (cursorAt chunks k) maxLength)
         else sliceFrom text (cursorAt chunks k)) /\
  (forall text start maxLength i p,
     nth_error [[DOT; SPACE]; [QUESTION; SPACE]; [BANG; SPACE];
                [DOT; NEWLINE]; [SPACE]] i = Some p ->
     qualifies text start (start + maxLength) p ->
     (forall j q,
        (j < i)%nat ->
        nth_error [[DOT; SPACE]; [QUESTION; SPACE]; [BANG; SPACE];
                   [DOT; NEWLINE]; [SPACE]] j = Some q ->
        ~ qualifies text start (start + maxLength) q) ->
     chooseEnd text start maxLength =
       lastIndexOf text p (start + maxLength) + len p) /\
  (forall text start maxLength,
     (forall q,
        In q [[DOT; SPACE]; [QUESTION; SPACE]; [BANG; SPACE];
              [DOT; NEWLINE]; [SPACE]] ->
        ~ qualifies text start (start + maxLength) q) ->
     chooseEnd text start maxLength = start + maxLength) /\
  (forall text p pos,
     In p [[DOT; SPACE]; [QUESTION; SPACE]; [BANG; SPACE];
           [DOT; NEWLINE]; [SPACE]] ->
     (lastIndexOf text p pos = -1 \/
      (0 <= lastIndexOf text p pos <= Z.max pos 0 /\
       matchAt text (Z.to_nat (lastIndexOf text p pos)) p = true)) /\
     (forall j : nat,
        Z.of_nat j <= pos -> matchAt text j p = true ->
        Z.of_nat j <= lastIndexOf text p pos)) /\
  (forall text start maxLength p,
     0 <= start ->
     In p sentencePoints ->
     qualifies text start (start + maxLength) p ->
     exists q,
       In q sentencePoints /\
       qualifies text start (start + maxLength) q /\
       matchAt text (Z.to_nat (lastIndexOf text q (start + maxLength))) q = true /\
       chooseEnd text start maxLength =
         lastIndexOf text q (start + maxLength) + 2) /\
  splitTextSafe (lit "Hello world. Next sentence here") 20 =
    Some [lit "Hello world. "; lit "Next sentence here"].
Proof.
  split; [|split; [|split; [|split; [|split]]]].
  - intros text maxLength chunks k c HL Hrun Hk.
    destruct (splitTextSafe_cuts text maxLength HL) as (chunks' & Hrun' & Hcuts).
    assert (chunks' = chunks) as -> by congruence.
    pose proof (Cuts_chunks text maxLength 0 chunks HL (Z.le_refl 0) Hcuts k c Hk)
      as H.
    rewrite !Z.add_0_l in H; exact H.
  - intros text start maxLength i p Hi Hp Hbefore.
    unfold chooseEnd, splitPoints.
    rewrite (findSplit_nth text start (start + maxLength) _ i p Hi Hp Hbefore).
    reflexivity.
  - intros text start maxLength Hnone.
    unfold chooseEnd, splitPoints.
    rewrite (findSplit_none text start (start + maxLength) _ Hnone).
    reflexivity.
  - intros text p pos Hp.
    assert (p <> []) as Hne by (apply splitPoints_nonempty; exact Hp).
    split.
    + destruct (lastIndexOf_found text p pos Hne) as [Hno | (Hr & _ & Hm)];
        [left; exact Hno | right; split; [exact Hr | exact Hm]].
    + intros j Hj Hm; exact (lastIndexOf_last text p pos j Hne Hj Hm).
  - unfold qualifies.
    intros text start maxLength p Hs Hp Hk.
    destruct (findSplit_first text start (start + maxLength)
                sentencePoints [[SPACE]] p Hp Hk) as (q & Hq & Hkq & Hrun).
    exists q; split; [exact Hq|]; split; [exact Hkq|].
    destruct (sentencePoints_split q Hq) as [Hin Hlen].
    split.
    + destruct (lastIndexOf_found text q (start + maxLength)
                  (splitPoints_nonempty q Hin)) as [Hno | (_ & _ & Hm)];
        [lia | exact Hm].
    + unfold chooseEnd.
      change splitPoints with (sentencePoints ++ [[SPACE]]).
      rewrite Hrun, Hlen; reflexivity.
  - vm_compute; reflexivity.
Qed.

(** The order at work: ["? "] is taken before the later ["! "], the bare
    space when no sentence-ending point occurs, the hard split when no
    split point does. *)
Lemma splitTextSafe_preference_witness :
  chooseEnd (lit "Is it? Yes! Go on then") 0 14 = 7 /\
  chooseEnd (lit "ab cd efgh") 0 7 = 6 /\
  chooseEnd (lit "abcdefghij") 0 4 = 4.
Proof.
  destruct splitTextSafe_preference as (_ & Hnth & Hhard & _).
  split; [|split].
  - rewrite (Hnth (lit "Is it? Yes! Go on then") 0 14 1%nat [QUESTION; SPACE]).
    + reflexivity.
    + reflexivity.
    + vm_compute; split; reflexivity.
    + intros j q Hj Hq.
      assert (j = 0%nat) as -> by lia.
      injection Hq as <-.
      vm_compute; intros [H _]; discriminate H.
  - rewrite (Hnth (lit "ab cd efgh") 0 7 4%nat [SPACE]).
    + reflexivity.
    + reflexivity.
    + vm_compute; split; reflexivity.
    + intros j q Hj Hq.
      destruct j as [|[|[|[|j]]]]; [| | | |lia];
        injection Hq as <-; vm_compute; intros [H _]; discriminate H.
  - rewrite (Hhard (lit "abcdefghij") 0 4).
    + reflexivity.
    + intros q Hq; simpl in Hq.
      destruct Hq as [<-|[<-|[<-|[<-|[<-|[]]]]]];
        vm_compute; intros [H _]; discriminate H.
Defined.

(** The two runs in full. *)
Example splitTextSafe_preference_runs :
  splitTextSafe (lit "Is it? Yes! Go on then") 14 =
    Some [lit "Is it? "; lit "Yes! "; lit "Go on then"] /\
  splitTextSafe (lit "ab cd efgh") 7 = Some [lit "ab cd "; lit "efgh"].
Proof. vm_compute; split; reflexivity. Qed.

(** ** C7: the number of chunks *)

(** C7, as the design document words it, fails: ["a bbbb"] with budget 3
    is cut into ["a "], ["bbb"], ["b"], while ["a b"], ["bbb"] respects
    the same bound with two chunks. *)
Lemma spec_min_count_fails : ~ spec_min_count (lit "a bbbb") 3.
Proof.
  intros H.
  specialize (H [lit "a "; lit "bbb"; lit "b"] [lit "a b"; lit "bbb"]
                eq_refl eq_refl).
  assert (3 <= 2)%nat as Habs; [|lia].
  apply H.
  constructor; [left; unfold len; simpl; lia|].
  constructor; [left; unfold len; simpl; lia|].
  constructor.
Qed.

(** C7, amended.  The number of chunks is not minimised: the cut goes to
    a split point even when a later cut would save a chunk.  For every
    text and budget [maxLength >= 1] every chunk is non-empty, so there
    are at most as many chunks as code units; and for a text that holds
    no split point the number of chunks is the text length divided by
    [maxLength], rounded up, which no splitting into chunks of at most
    [maxLength] code units undercuts. *)
Theorem splitTextSafe_chunk_count (text : jsstring) (maxLength : Z) :
  1 <= maxLength ->
  exists chunks,
    splitTextSafe text maxLength = Some chunks /\
    Z.of_nat (length chunks) <= len text /\
    (hasMarker text = false ->
       Z.of_nat (length chunks) = (len text + maxLength - 1) / maxLength /\
       forall others : list jsstring,
         concat others = text ->
         Forall (fun c => len c <= maxLength) others ->
         (length chunks <= length others)%nat).
Proof.
  intros HL.
  destruct (splitTextSafe_cuts text maxLength HL) as (chunks & Hrun & Hcuts).
  exists chunks; split; [exact Hrun|]; split.
  - assert (concat chunks = text) as Hcat
      by exact (Cuts_concat text maxLength 0 chunks HL (Z.le_refl 0) Hcuts).
    pose proof (Cuts_chunk_shape text maxLength 0 chunks HL (Z.le_refl 0) Hcuts)
      as Hshape.
    clear Hrun Hcuts; subst text.
    apply concat_len_lower.
    eapply Forall_impl; [|exact Hshape].
    intros c [Hlen _]; lia.
  - intros Hfree.
    destruct (Cuts_marker_free text maxLength 0 chunks HL Hfree) as (_ & _ & Hn);
      [pose proof (len_nonneg text); lia | exact Hcuts |].
    rewrite Z.sub_0_r in Hn.
    split; [exact Hn|].
    intros others Hcat Hbound.
    pose proof (concat_len_upper others maxLength Hbound) as Hup.
    rewrite Hcat in Hup.
    assert ((len text + maxLength - 1) / maxLength <= Z.of_nat (length others))
      as Hle; [|lia].
    apply Z.lt_succ_r, Z.div_lt_upper_bound; [lia|].
    rewrite Z.mul_succ_r; lia.
Qed.

Lemma splitTextSafe_chunk_count_witness :
  exists chunks,
    splitTextSafe (lit "abcdefghij") 4 = Some chunks /\
    Z.of_nat (length chunks) <= len (lit "abcdefghij") /\
    (hasMarker (lit "abcdefghij") = false ->
       Z.of_nat (length chunks) = (len (lit "abcdefghij") + 4 - 1) / 4 /\
       forall others : list jsstring,
         concat others = lit "abcdefghij" ->
         Forall (fun c => len c <= 4) others ->
         (length chunks <= length others)%nat).
Proof.
  apply (splitTextSafe_chunk_count (lit "abcdefghij") 4).
  lia.
Defined.

(** ** C8: the Hindi instruction of [translateText] *)

Lemma toLowerUnit_letter (lower c : N) :
  (97 <= lower <= 122)%N -> toLowerUnit c = lower <-> letterOf lower c.
Proof.
  intros Hl; unfold toLowerUnit, letterOf.
  destruct (N.leb_spec 65 c); destruct (N.leb_spec c 90); simpl; lia.
Qed.

Lemma toLowerCaseBasic_letters (pattern s : jsstring) :
  Forall (fun l => (97 <= l <= 122)%N) pattern ->
  toLowerCaseBasic s = pattern <-> Forall2 letterOf pattern s.
Proof.
  intros Hp; revert s.
  induction Hp as [|l pattern Hl _ IH]; intros s.
  - destruct s; simpl; split; intros H;
      try constructor; try discriminate; inversion H.
  - destruct s as [|c s]; simpl.
    + split; intros H; [discriminate | inversion H].
    + split.
      * intros H; injection H as H1 H2.
        constructor; [apply toLowerUnit_letter; assumption | apply IH; exact H2].
      * intros H; inversion H; subst.
        f_equal; [apply toLowerUnit_letter; assumption | apply IH; assumption].
Qed.

(** On Basic Latin, lower-casing and then searching is the search for the
    word in either case of each letter. *)
Lemma includes_hindi (name : jsstring) :
  includes (toLowerCaseBasic name) (lit "hindi") = true <-> containsHindi name.
Proof.
  assert (Forall (fun l => (97 <= l <= 122)%N) (lit "hindi")) as Hlow
    by (repeat constructor; vm_compute; discriminate).
  rewrite includes_app; unfold containsHindi; split.
  - intros (pre' & post' & H).
    unfold toLowerCaseBasic in H.
    apply map_eq_app in H as (pre & rest & -> & _ & H).
    apply map_eq_app in H as (mid & post & -> & H & _).
    exists pre, mid, post; split; [reflexivity|].
    apply (toLowerCaseBasic_letters _ _ Hlow); exact H.
  - intros (pre & mid & post & -> & H).
    apply (toLowerCaseBasic_letters _ _ Hlow) in H.
    exists (toLowerCaseBasic pre), (toLowerCaseBasic post).
    unfold toLowerCaseBasic in *; rewrite !map_app, H; reflexivity.
Qed.

Section HindiInstruction.

Variable toLowerCase : jsstring -> jsstring.
Variable generateContent : jsstring -> outcome (option jsstring).

(** C8.  Whatever the collaborator, the one request [translateText] makes
    carries [prompt], two line breaks, the line [Text to translate:] and
    the text between double quotes, where [prompt] is the plain translation prompt followed by the
    conversational-Hindi instruction when the lower-cased target language
    name contains "hindi", and the plain translation prompt alone when it
    does not; the two requests differ.  For a name of Basic Latin code
    units the lower-cased name contains "hindi" exactly when five
    consecutive code units of the name are the letters h, i, n, d, i,
    each in lower or upper case. *)
Theorem translateText_hindi_instruction (text targetLanguage : jsstring) :
  let rest :=
    [NEWLINE; NEWLINE] ++ lit "Text to translate:" ++ [NEWLINE; QUOTE] ++
    text ++ [QUOTE] in
  let withInstruction :=
    plainPrompt targetLanguage ++ HINDI_INSTRUCTION ++ rest in
  let plain := plainPrompt targetLanguage ++ rest in
  (includes (toLowerCase targetLanguage) (lit "hindi") = true ->
     translateText toLowerCase generateContent text targetLanguage =
       match generateContent withInstruction with
       | Resolved t => Ok (textOrEmpty t)
       | Rejected => Err TRANSLATE_FAILED
       end) /\
  (includes (toLowerCase targetLanguage) (lit "hindi") = false ->
     translateText toLowerCase generateContent text targetLanguage =
       match generateContent plain with
       | Resolved t => Ok (textOrEmpty t)
       | Rejected => Err TRANSLATE_FAILED
       end) /\
  withInstruction <> plain /\
  (lowersBasicLatin toLowerCase -> basicLatin targetLanguage ->
     (includes (toLowerCase targetLanguage) (lit "hindi") = true <->
      containsHindi targetLanguage)).
Proof.
  cbv zeta; unfold translateText, translateRequest, translatePrompt.
  split; [|split; [|split]].
  - intros ->; cbv iota zeta; rewrite <- ?app_assoc; reflexivity.
  - intros ->; cbv iota zeta; rewrite <- ?app_assoc; reflexivity.
  - intros H.
    apply app_inv_head in H.
    apply (f_equal (@length N)) in H.
    rewrite length_app in H.
    assert (0 < length HINDI_INSTRUCTION)%nat by (vm_compute; lia).
    lia.
  - intros Hhost Hbasic.
    rewrite (Hhost targetLanguage Hbasic).
    apply includes_hindi.
Qed.

End HindiInstruction.

(** The request for Hindi with a collaborator that answers by repeating
    the request. *)
Lemma translateText_hindi_instruction_witness :
  translateText toLowerCaseBasic (fun request => Resolved (Some request))
                (lit "Hello") (lit "Hindi")
    = Ok (plainPrompt (lit "Hindi") ++ HINDI_INSTRUCTION ++
          [NEWLINE; NEWLINE] ++ lit "Text to translate:" ++ [NEWLINE; QUOTE] ++
          lit "Hello" ++ [QUOTE]).
Proof.
  apply (translateText_hindi_instruction toLowerCaseBasic
           (fun request => Resolved (Some request)) (lit "Hello") (lit "Hindi")).
  reflexivity.
Defined.

(** Of the supported languages only Hindi gets the instruction. *)
Example supported_languages_hindi :
  filter (fun name => includes (toLowerCaseBasic name) (lit "hindi"))
         SUPPORTED_LANGUAGE_NAMES = [lit "Hindi"].
Proof. vm_compute; reflexivity. Qed.

(** ** C10: an empty translation is a result, not a failure *)

Section TranslationFacts.

Variable toLowerCase : jsstring -> jsstring.
Variable generateContent : jsstring -> outcome (option jsstring).

(** C10.  When the collaborator resolves with an absent or empty text,
    [translateText] returns the empty string; it fails, with the one
    translation error, exactly when the collaborator call is rejected. *)
Theorem translateText_empty_payload (text targetLanguage : jsstring) :
  (generateContent (translateRequest toLowerCase text targetLanguage)
     = Resolved None \/
   generateContent (translateRequest toLowerCase text targetLanguage)
     = Resolved (Some [])
     -> translateText toLowerCase generateContent text targetLanguage = Ok [])
  /\
  (forall message,
     translateText toLowerCase generateContent text targetLanguage
       = Err message <->
     generateContent (translateRequest toLowerCase text targetLanguage)
       = Rejected /\
     message = TRANSLATE_FAILED).
Proof.
  unfold translateText.
  destruct (generateContent (translateRequest toLowerCase text targetLanguage))
    as [t|] eqn:E.
  - split.
    + intros [H | H]; injection H as ->; reflexivity.
    + intros message; split; [discriminate | intros [H _]; discriminate].
  - split.
    + intros [H | H]; discriminate.
    + intros message; split.
      * intros H; injection H as <-; split; reflexivity.
      * intros [_ ->]; reflexivity.
Qed.

End TranslationFacts.

Lemma translateText_empty_payload_witness :
  translateText toLowerCaseBasic (fun _ => Resolved (Some []))
                (lit "Good morning") (lit "French")
    = Ok [] /\
  translateText toLowerCaseBasic (fun _ => Rejected)
                (lit "Good morning") (lit "French")
    = Err TRANSLATE_FAILED.
Proof.
  split.
  - apply (translateText_empty_payload toLowerCaseBasic
             (fun _ => Resolved (Some []))
             (lit "Good morning") (lit "French")).
    right; reflexivity.
  - apply (translateText_empty_payload toLowerCaseBasic (fun _ => Rejected)
             (lit "Good morning") (lit "French")).
    split; reflexivity.
Defined.

(** ** The speech loop *)

Section SpeechFacts.

Variable generateContent :
  nat -> jsstring -> jsstring -> outcome (option jsstring).
Variable base64ToBytes : jsstring -> option bytes.
Variable bytesToBase64 : bytes -> jsstring.

Lemma planned_cons (chunk : jsstring) (chunks : list jsstring) :
  planned (chunk :: chunks) =
    if isFalsy (trim chunk) then planned chunks else chunk :: planned chunks.
Proof.
  unfold planned; simpl.
  destruct (isFalsy (trim chunk)); reflexivity.
Qed.

(** When no request is rejected and every payload decodes, the loop
    issues all planned requests, in order, and collects the decoded
    payloads, in order. *)
Lemma speechLoop_completes (voiceName : jsstring) (chunks : list jsstring) :
  forall (st : speechState) (parts : list bytes),
    Forall (fun r => r <> Rejected)
           (outcomesFrom generateContent (length (requests st))
                         (planned chunks) voiceName) ->
    decodePayloads base64ToBytes
      (outcomesFrom generateContent (length (requests st))
                    (planned chunks) voiceName)
      = Some parts ->
    speechLoop generateContent base64ToBytes chunks voiceName st =
      (requests st ++ asRequests voiceName (planned chunks),
       Some (audioParts st ++ parts)).
Proof.
  induction chunks as [|chunk chunks IH]; intros st parts Hok Hdec.
  - simpl in *; injection Hdec as <-.
    rewrite !app_nil_r; reflexivity.
  - cbn [speechLoop]; rewrite planned_cons in *.
    destruct (isFalsy (trim chunk)) eqn:Eblank; [apply IH; assumption|].
    cbn [outcomesFrom asRequests map decodePayloads] in *.
    inversion Hok as [|r outs Hr Hrest]; subst; clear Hok.
    assert (forall aps,
              length (requests (mkSpeech (requests st ++ [(chunk, voiceName)]) aps))
              = S (length (requests st))) as Hlen
      by (intros aps; simpl; rewrite length_app; simpl; lia).
    destruct (generateContent (length (requests st)) chunk voiceName)
      as [[base64Audio|]|] eqn:Eout; [| |congruence]; cbn [payloadOf] in Hdec.
    + destruct (isFalsy base64Audio) eqn:Efalsy; cbv iota in Hdec.
      * rewrite (IH (mkSpeech (requests st ++ [(chunk, voiceName)])
                              (audioParts st)) parts);
          rewrite ?Hlen; try assumption.
        simpl; rewrite <- app_assoc; reflexivity.
      * destruct (base64ToBytes base64Audio) as [part|]; [|discriminate].
        destruct (decodePayloads base64ToBytes
                    (outcomesFrom generateContent (S (length (requests st)))
                                  (planned chunks) voiceName))
          as [more|] eqn:Emore; cbn [option_map] in Hdec; [|discriminate].
        injection Hdec as <-.
        rewrite (IH (mkSpeech (requests st ++ [(chunk, voiceName)])
                              (audioParts st ++ [part])) more);
          rewrite ?Hlen; try assumption.
        simpl; rewrite <- !app_assoc; reflexivity.
    + rewrite (IH (mkSpeech (requests st ++ [(chunk, voiceName)])
                            (audioParts st)) parts);
        rewrite ?Hlen; try assumption.
      simpl; rewrite <- app_assoc; reflexivity.
Qed.



Lemma chunker_returns (text : jsstring) :
  exists chunks, splitTextSafe text TTS_CHUNK_SIZE = Some chunks.
Proof.
  destruct (splitTextSafe_cuts text TTS_CHUNK_SIZE) as (chunks & H & _);
    [unfold TTS_CHUNK_SIZE; lia | exists chunks; exact H].
Qed.

(** ** C3: all chunks empty, or the merge of the present ones *)


(** ** C4: a rejected request aborts the synthesis *)

(** If the request planned as number [i] would be rejected, the loop is
    left by an exception, and what was sent is a prefix of the planned
    requests that stops at that request or before it. *)
Lemma speechLoop_rejected (voiceName : jsstring) (chunks : list jsstring) :
  forall (st : speechState) (i : nat),
    nth_error (outcomesFrom generateContent (length (requests st))
                            (planned chunks) voiceName) i = Some Rejected ->
    exists k,
      (k <= i + 1)%nat /\
      speechLoop generateContent base64ToBytes chunks voiceName st =
        (requests st ++ firstn k (asRequests voiceName (planned chunks)),
         None).
Proof.
  induction chunks as [|chunk chunks IH]; intros st i Hrej.
  - destruct i; discriminate Hrej.
  - cbn [speechLoop]; rewrite planned_cons in *.
    destruct (isFalsy (trim chunk)) eqn:Eblank; [apply IH; exact Hrej|].
    cbn [outcomesFrom asRequests map] in *.
    assert (forall aps,
              length (requests (mkSpeech (requests st ++ [(chunk, voiceName)]) aps))
              = S (length (requests st))) as Hlen
      by (intros aps; simpl; rewrite length_app; simpl; lia).
    assert (forall aps,
              (exists i', i = S i' /\
                 nth_error (outcomesFrom generateContent
                              (S (length (requests st)))
                              (planned chunks) voiceName) i' = Some Rejected) ->
              exists k,
                (k <= i + 1)%nat /\
                speechLoop generateContent base64ToBytes chunks voiceName
                  (mkSpeech (requests st ++ [(chunk, voiceName)]) aps) =
                (requests st ++
                   firstn k ((chunk, voiceName)
                             :: map (fun c => (c, voiceName)) (planned chunks)),
                 None)) as Hnext.
    { intros aps (i' & -> & Hrej').
      destruct (IH (mkSpeech (requests st ++ [(chunk, voiceName)]) aps) i')
        as (k & Hk & Hrun); [rewrite Hlen; exact Hrej'|].
      exists (S k); split; [lia|].
      rewrite Hrun; simpl; rewrite <- app_assoc; reflexivity. }
    destruct (generateContent (length (requests st)) chunk voiceName)
      as [data|] eqn:Eout.
    + assert (exists i', i = S i' /\
                nth_error (outcomesFrom generateContent
                             (S (length (requests st)))
                             (planned chunks) voiceName) i' = Some Rejected)
        as Hlater
        by (destruct i as [|i']; [discriminate Hrej | exists i'; split;
                                                       [reflexivity | exact Hrej]]).
      destruct data as [base64Audio|]; [|apply Hnext; exact Hlater].
      destruct (isFalsy base64Audio); [apply Hnext; exact Hlater|].
      destruct (base64ToBytes base64Audio); [apply Hnext; exact Hlater|].
      exists 1%nat; split; [lia | reflexivity].
    + exists 1%nat; split; [lia | reflexivity].
Qed.

(** C4.  If any of the requests planned for the text would be rejected,
    [generateSpeech] fails with the single speech error and returns no
    stream; the requests sent are a prefix of the planned ones that
    ends at the rejected request at the latest, so nothing is sent after
    a rejection and the rejected request is not sent again. *)
Theorem generateSpeech_aborts (text voiceName : jsstring) :
  exists chunks,
    splitTextSafe text TTS_CHUNK_SIZE = Some chunks /\
    forall i,
      nth_error (outcomesFrom generateContent 0 (planned chunks) voiceName) i
        = Some Rejected ->
      exists k,
        (k <= i + 1)%nat /\
        generateSpeech generateContent base64ToBytes bytesToBase64
                       text voiceName =
          Some (firstn k (asRequests voiceName (planned chunks)),
                Err SPEECH_FAILED).
Proof.
  destruct (chunker_returns text) as (chunks & Hrun).
  exists chunks; split; [exact Hrun|].
  intros i Hrej.
  destruct (speechLoop_rejected voiceName chunks (mkSpeech [] []) i Hrej)
    as (k & Hk & Hloop).
  exists k; split; [exact Hk|].
  unfold generateSpeech; rewrite Hrun, Hloop; reflexivity.
Qed.

End SpeechFacts.

(** ** Runs of [generateSpeech] on a three-chunk text *)

(** A text of 3008 code units: ["Hi. "], 3000 times ["a"], [" end"]. *)
Definition sampleText : jsstring :=
  lit "Hi. " ++ repeat 97%N 3000 ++ lit " end".

(** A stand-in for the codec of [utils/audioHelper]: one byte per code
    unit. *)
Definition rawDecode (s : jsstring) : option bytes :=
  Some (map (fun c => match Byte.of_N c with
                      | Some b => b
                      | None => Byte.x00
                      end) s).

Definition rawEncode (b : bytes) : jsstring := map Byte.to_N b.

(** A collaborator that answers the first request without audio and
    every later one with the payload ["QUJD"]. *)
Definition firstSilent (n : nat) (chunk voiceName : jsstring)
  : outcome (option jsstring) :=
  match n with
  | O => Resolved None
  | S _ => Resolved (Some (lit "QUJD"))
  end.

(** A collaborator that rejects the second request. *)
Definition secondRejected (n : nat) (chunk voiceName : jsstring)
  : outcome (option jsstring) :=
  match n with
  | 1%nat => Rejected
  | _ => Resolved (Some (lit "QUJD"))
  end.

Example sampleText_chunks :
  splitTextSafe sampleText TTS_CHUNK_SIZE =
    Some [lit "Hi. "; repeat 97%N 3000; lit " end"].
Proof. vm_compute; reflexivity. Qed.

(** One chunk without audio does not stop the run: the two payloads that
    are present are merged, in chunk order. *)
Example sampleText_firstSilent :
  generateSpeech firstSilent rawDecode rawEncode sampleText (lit "Kore")
    = Some (asRequests (lit "Kore") [lit "Hi. "; repeat 97%N 3000; lit " end"],
            Ok (lit "QUJDQUJD")).
Proof. vm_compute; reflexivity. Qed.

(** The rejected second request is the last one sent. *)
Example sampleText_secondRejected :
  generateSpeech secondRejected rawDecode rawEncode sampleText (lit "Kore")
    = Some (asRequests (lit "Kore") [lit "Hi. "; repeat 97%N 3000],
            Err SPEECH_FAILED).
Proof. vm_compute; reflexivity. Qed.



(** The strict decoder on a well-formed and on a malformed payload. *)
Example base64ToBytesStrict_examples :
  base64ToBytesStrict (lit "QUJD") = Some [Byte.x41; Byte.x42; Byte.x43] /\
  base64ToBytesStrict (lit "QUI=") = Some [Byte.x41; Byte.x42] /\
  base64ToBytesStrict (lit "@@") = None /\
  generateSpeech (fun _ _ _ => Resolved (Some (lit "@@")))
                 base64ToBytesStrict rawEncode
                 (lit "Good evening.") (lit "Kore")
    = Some ([(lit "Good evening.", lit "Kore")], Err SPEECH_FAILED).
Proof. vm_compute; repeat split. Qed.

Lemma generateSpeech_aborts_witness :
  exists k,
    (k <= 1)%nat /\
    generateSpeech (fun _ _ _ => Rejected) rawDecode rawEncode
                   (lit "Good evening.") (lit "Kore")
      = Some (firstn k [(lit "Good evening.", lit "Kore")], Err SPEECH_FAILED).
Proof.
  destruct (generateSpeech_aborts (fun _ _ _ => Rejected) rawDecode rawEncode
              (lit "Good evening.") (lit "Kore")) as (chunks & Hrun & H).
  vm_compute in Hrun; injection Hrun as <-.
  apply (H 0%nat).
  reflexivity.
Defined.

(** ** C6: the waveform columns *)

Section WaveformFacts.

Local Open Scope Q_scope.

Lemma Qltb_lt (x y : Q) : Qltb x y = true <-> x < y.
Proof.
  unfold Qltb; rewrite Qlt_alt.
  destruct (x ?= y); split; congruence.
Qed.

Lemma Qltb_ge (x y : Q) : Qltb x y = false -> y <= x.
Proof.
  intros H; apply Qnot_lt_le; intros Hlt.
  apply Qltb_lt in Hlt; congruence.
Qed.

Lemma scanSample_datum (data : list Q) (i step : nat) (acc : column) (j : nat) :
  scanSample data i step acc j =
    match nth_error data (i * step + j) with
    | Some d => scanDatum acc d
    | None => acc
    end.
Proof.
  unfold scanSample, scanDatum.
  destruct (nth_error data (i * step + j)); [reflexivity|].
  destruct acc; reflexivity.
Qed.

Lemma firstn_succ_nth (l : list Q) (n : nat) :
  firstn (S n) l =
    firstn n l ++ match nth_error l n with
                  | Some d => [d]
                  | None => []
                  end.
Proof.
  revert l; induction n as [|n IH]; intros [|x l]; simpl; try reflexivity.
  f_equal; apply IH.
Qed.

Lemma scan_prefix (data : list Q) (step i n : nat) (init : column) :
  fold_left (scanSample data i step) (seq 0 n) init =
    fold_left scanDatum (firstn n (skipn (i * step) data)) init.
Proof.
  induction n as [|n IH]; [reflexivity|].
  rewrite seq_S, fold_left_app, IH, firstn_succ_nth, fold_left_app.
  simpl; rewrite scanSample_datum, nth_error_skipn.
  destruct (nth_error data (i * step + n)); reflexivity.
Qed.

(** The inner loop reads the samples of the window, in order. *)
Lemma scanColumn_window (data : list Q) (step i : nat) :
  scanColumn data step i =
    fold_left scanDatum (window data step i) (mkColumn (1 # 1) (-1 # 1)).
Proof. apply scan_prefix. Qed.

Lemma fold_scanDatum (l : list Q) (a b : Q) :
  fold_left scanDatum l (mkColumn a b) = mkColumn (minOf a l) (maxOf b l).
Proof.
  revert a b; induction l as [|d l IH]; intros a b; [reflexivity|].
  simpl; unfold scanDatum at 2; simpl; apply IH.
Qed.

Lemma minOf_bounds (l : list Q) (init : Q) :
  minOf init l <= init /\
  (forall x, In x l -> minOf init l <= x) /\
  (minOf init l = init \/ In (minOf init l) l).
Proof.
  revert init; induction l as [|d l IH]; intros init.
  - simpl; repeat split; [apply Qle_refl | contradiction | left; reflexivity].
  - change (minOf init (d :: l))
      with (minOf (if Qltb d init then d else init) l).
    destruct (IH (if Qltb d init then d else init)) as (H1 & H2 & H3).
    destruct (Qltb d init) eqn:E.
    + apply Qltb_lt in E.
      split; [eapply Qle_trans; [exact H1 | apply Qlt_le_weak; exact E]|].
      split.
      * intros x [<- | Hx]; [exact H1 | apply H2; exact Hx].
      * right; destruct H3 as [-> | H3]; [left; reflexivity | right; exact H3].
    + apply Qltb_ge in E.
      split; [exact H1|].
      split.
      * intros x [<- | Hx];
          [eapply Qle_trans; [exact H1 | exact E] | apply H2; exact Hx].
      * destruct H3 as [H3 | H3]; [left; exact H3 | right; right; exact H3].
Qed.

Lemma maxOf_bounds (l : list Q) (init : Q) :
  init <= maxOf init l /\
  (forall x, In x l -> x <= maxOf init l) /\
  (maxOf init l = init \/ In (maxOf init l) l).
Proof.
  revert init; induction l as [|d l IH]; intros init.
  - simpl; repeat split; [apply Qle_refl | contradiction | left; reflexivity].
  - change (maxOf init (d :: l))
      with (maxOf (if Qltb init d then d else init) l).
    destruct (IH (if Qltb init d then d else init)) as (H1 & H2 & H3).
    destruct (Qltb init d) eqn:E.
    + apply Qltb_lt in E.
      split; [eapply Qle_trans; [apply Qlt_le_weak; exact E | exact H1]|].
      split.
      * intros x [<- | Hx]; [exact H1 | apply H2; exact Hx].
      * right; destruct H3 as [-> | H3]; [left; reflexivity | right; exact H3].
    + apply Qltb_ge in E.
      split; [exact H1|].
      split.
      * intros x [<- | Hx];
          [eapply Qle_trans; [exact E | exact H1] | apply H2; exact Hx].
      * destruct H3 as [H3 | H3]; [left; exact H3 | right; right; exact H3].
Qed.

(** [ceilDiv] is the quotient rounded up. *)
Lemma ceilDiv_ceiling (n width : nat) :
  (1 <= width)%nat ->
  (n <= ceilDiv n width * width < n + width)%nat.
Proof.
  intros Hw; unfold ceilDiv.
  pose proof (Nat.div_mod_eq (n + width - 1) width) as Hdm.
  pose proof (Nat.mod_upper_bound (n + width - 1) width ltac:(lia)) as Hlt.
  nia.
Qed.

(** C6, as the design document words it, fails: for an empty sample
    array the one column is not the default [{min: 0, max: 0}]. *)
Lemma spec_renderColumns_fails :
  drawWaveform [] 1 <> spec_renderColumns [] 1.
Proof. vm_compute; discriminate. Qed.

(** C6, amended.  For every sample array and every width there are
    exactly [width] columns.  Column [i] holds the least and the
    greatest of the values that start the scan, 1.0 for [min] and -1.0
    for [max], and the samples of its window of
    [ceil(sampleCount / width)] samples: [min] is at most 1.0 and at
    most every sample of the window and is one of these values, and
    likewise [max].  An empty window gives [{min: 1.0, max: -1.0}]. *)
Theorem drawWaveform_columns (data : list Q) (width : nat) :
  length (drawWaveform data width) = width /\
  ((1 <= width)%nat ->
     (length data <= ceilDiv (length data) width * width
                  < length data + width)%nat) /\
  forall i, (i < width)%nat ->
    let w := window data (ceilDiv (length data) width) i in
    nth_error (drawWaveform data width) i
      = Some (mkColumn (minOf (1 # 1) w) (maxOf (-1 # 1) w)) /\
    (minOf (1 # 1) w <= 1 # 1 /\
     (forall x, In x w -> minOf (1 # 1) w <= x) /\
     (minOf (1 # 1) w = 1 # 1 \/ In (minOf (1 # 1) w) w)) /\
    (-1 # 1 <= maxOf (-1 # 1) w /\
     (forall x, In x w -> x <= maxOf (-1 # 1) w) /\
     (maxOf (-1 # 1) w = -1 # 1 \/ In (maxOf (-1 # 1) w) w)) /\
    (w = [] ->
     nth_error (drawWaveform data width) i
       = Some (mkColumn (1 # 1) (-1 # 1))).
Proof.
  assert (forall i, (i < width)%nat ->
            nth_error (drawWaveform data width) i =
              Some (scanColumn data (ceilDiv (length data) width) i)) as Hnth.
  { intros i Hi; unfold drawWaveform.
    rewrite nth_error_map.
    rewrite (nth_error_nth' _ 0%nat) by (rewrite length_seq; exact Hi).
    rewrite seq_nth by exact Hi; reflexivity. }
  split; [unfold drawWaveform; rewrite length_map, length_seq; reflexivity|].
  split; [apply ceilDiv_ceiling|].
  intros i Hi w.
  assert (nth_error (drawWaveform data width) i
          = Some (mkColumn (minOf (1 # 1) w) (maxOf (-1 # 1) w))) as Hcol
    by (rewrite (Hnth i Hi), scanColumn_window, fold_scanDatum; reflexivity).
  split; [exact Hcol|].
  split; [apply minOf_bounds|].
  split; [apply maxOf_bounds|].
  intros Hempty; rewrite Hcol, Hempty; reflexivity.
Qed.

End WaveformFacts.

(** A buffer of five samples on three columns: windows of two samples,
    the last one cut short by the end of the array. *)
Example drawWaveform_five_on_three :
  drawWaveform [1 # 2; -1 # 4; 3 # 4; 0 # 1; -1 # 2]%Q 3 =
    [ mkColumn (-1 # 4) (1 # 2); mkColumn (0 # 1) (3 # 4);
      mkColumn (-1 # 2) (-1 # 2) ]%Q.
Proof. vm_compute; reflexivity. Qed.

(** No samples at all: every column keeps the values the scan starts
    from. *)
Example drawWaveform_no_samples :
  drawWaveform [] 4 = repeat (mkColumn (1 # 1) (-1 # 1))%Q 4.
Proof. vm_compute; reflexivity. Qed.

(* ================================================================== *)
(** * Part IV. Further properties of the chunker and the speech driver *)
(* ================================================================== *)

(** ** Chunk lengths and cut points *)

(** X1.  For every text and every budget [maxLength >= 1], every chunk
    [splitTextSafe] returns has at least one and at most [maxLength + 1]
    code units, so the text is no longer than the number of chunks times
    [maxLength + 1]. *)
Theorem splitTextSafe_chunk_lengths (text : jsstring) (maxLength : Z) :
  1 <= maxLength ->
  exists chunks,
    splitTextSafe text maxLength = Some chunks /\
    Forall (fun c => 0 < len c <= maxLength + 1) chunks /\
    len text <= (maxLength + 1) * Z.of_nat (length chunks).
Proof.
  intros HL.
  destruct (splitTextSafe_cuts text maxLength HL) as (chunks & Hrun & Hcuts).
  assert (Forall (fun c => 0 < len c <= maxLength + 1) chunks) as Hlen.
  { eapply Forall_impl;
      [|exact (Cuts_chunk_shape text maxLength 0 chunks HL (Z.le_refl 0) Hcuts)].
    intros c [H _]; exact H. }
  exists chunks; split; [exact Hrun|]; split; [exact Hlen|].
  assert (concat chunks = text) as Hcat
    by exact (Cuts_concat text maxLength 0 chunks HL (Z.le_refl 0) Hcuts).
  rewrite <- Hcat.
  apply concat_len_upper.
  eapply Forall_impl; [|exact Hlen].
  intros c [_ Hc]; exact Hc.
Qed.

Lemma splitTextSafe_chunk_lengths_witness :
  exists chunks,
    splitTextSafe (lit "ab. cd") 3 = Some chunks /\
    Forall (fun c => 0 < len c <= 3 + 1) chunks /\
    len (lit "ab. cd") <= (3 + 1) * Z.of_nat (length chunks).
Proof.
  apply (splitTextSafe_chunk_lengths (lit "ab. cd") 3).
  lia.
Defined.

(** Every chunk an iteration pushes is a hard split of exactly
    [maxLength] code units or ends with the split point it was cut at. *)
Lemma Cuts_cut_points (text : jsstring) (maxLength start : Z)
    (chunks : list jsstring) :
  1 <= maxLength -> 0 <= start ->
  Cuts text maxLength start chunks ->
  Forall (fun c => len c = maxLength \/
                   exists pre p, In p splitPoints /\ c = pre ++ p)
         (removelast chunks).
Proof.
  intros HL Hs H.
  induction H as [start Hd | start Hin Hshort | start chunks Hin Hlong H IH].
  - constructor.
  - constructor.
  - destruct (chooseEnd_range text start maxLength HL Hs) as [He Hb]; [lia|].
    destruct chunks as [|c chunks]; [constructor|].
    change (removelast (slice text start (chooseEnd text start maxLength)
                          :: c :: chunks))
      with (slice text start (chooseEnd text start maxLength)
              :: removelast (c :: chunks)).
    constructor; [|apply IH; lia].
    destruct (chooseEnd_cases text start maxLength Hs)
      as [[_ Hhard] | (p & Hp & _ & _ & _ & Hshape)].
    + left; rewrite len_slice by lia; lia.
    + right.
      exists (slice text start (lastIndexOf text p (start + maxLength))), p.
      split; [exact Hp | exact Hshape].
Qed.

(** The chunk pushed last is within the budget unless it, too, was cut
    at a split point. *)
Lemma Cuts_last_chunk (text : jsstring) (maxLength start : Z)
    (chunks : list jsstring) :
  1 <= maxLength -> 0 <= start ->
  Cuts text maxLength start chunks ->
  len (last chunks []) <= maxLength \/
  exists pre p, In p splitPoints /\ last chunks [] = pre ++ p.
Proof.
  intros HL Hs H.
  induction H as [start Hd | start Hin Hshort | start chunks Hin Hlong H IH].
  - left; unfold len; simpl; lia.
  - left; simpl; rewrite sliceFrom_inside by lia.
    unfold len in *; rewrite length_skipn; lia.
  - destruct (chooseEnd_range text start maxLength HL Hs) as [He Hb]; [lia|].
    destruct chunks as [|c chunks]; [|apply IH; lia].
    cbn [last].
    destruct (chooseEnd_cases text start maxLength Hs)
      as [[_ Hhard] | (p & Hp & _ & _ & _ & Hshape)].
    + left; rewrite len_slice by lia; lia.
    + right.
      exists (slice text start (lastIndexOf text p (start + maxLength))), p.
      split; [exact Hp | exact Hshape].
Qed.

(** X2.  For every text and every budget [maxLength >= 1], every chunk but
    the last is either a hard split of exactly [maxLength] code units or
    ends with one of the split points ['. '], ['? '], ['! '], ['.\n'],
    [' ']; the last chunk has at most [maxLength] code units or ends
    with a split point. *)
Theorem splitTextSafe_cut_points (text : jsstring) (maxLength : Z) :
  1 <= maxLength ->
  exists chunks,
    splitTextSafe text maxLength = Some chunks /\
    Forall (fun c => len c = maxLength \/
                     exists pre p, In p splitPoints /\ c = pre ++ p)
           (removelast chunks) /\
    (len (last chunks []) <= maxLength \/
     exists pre p, In p splitPoints /\ last chunks [] = pre ++ p).
Proof.
  intros HL.
  destruct (splitTextSafe_cuts text maxLength HL) as (chunks & Hrun & Hcuts).
  exists chunks; split; [exact Hrun|]; split.
  - exact (Cuts_cut_points text maxLength 0 chunks HL (Z.le_refl 0) Hcuts).
  - exact (Cuts_last_chunk text maxLength 0 chunks HL (Z.le_refl 0) Hcuts).
Qed.

Lemma splitTextSafe_cut_points_witness :
  exists chunks,
    splitTextSafe (lit "One. Two three four") 6 = Some chunks /\
    Forall (fun c => len c = 6 \/
                     exists pre p, In p splitPoints /\ c = pre ++ p)
           (removelast chunks) /\
    (len (last chunks []) <= 6 \/
     exists pre p, In p splitPoints /\ last chunks [] = pre ++ p).
Proof.
  apply (splitTextSafe_cut_points (lit "One. Two three four") 6).
  lia.
Defined.

(** ** Blank text *)

Lemma trimStart_white (s : jsstring) :
  Forall (fun c => isWhiteSpace c = true) s -> trimStart s = [].
Proof.
  induction 1 as [|c s Hc _ IH]; simpl; [reflexivity|].
  rewrite Hc; exact IH.
Qed.

Lemma trim_white (s : jsstring) :
  Forall (fun c => isWhiteSpace c = true) s -> trim s = [].
Proof.
  intros H; unfold trim.
  rewrite (trimStart_white s H); reflexivity.
Qed.

Lemma planned_white (chunks : list jsstring) :
  Forall (Forall (fun c => isWhiteSpace c = true)) chunks ->
  planned chunks = [].
Proof.
  induction 1 as [|chunk chunks Hc _ IH]; [reflexivity|].
  unfold planned in *; simpl.
  rewrite (trim_white chunk Hc); exact IH.
Qed.

(** Chunks that are not blank hold a code unit that is not white space. *)
Lemma planned_not_blank (chunks : list jsstring) :
  Forall (fun c => isFalsy (trim c) = false) (planned chunks).
Proof.
  apply Forall_forall; intros c Hc.
  apply filter_In in Hc as [_ Hc].
  apply negb_true_iff in Hc; exact Hc.
Qed.

Lemma planned_subset (chunks : list jsstring) (c : jsstring) :
  In c (planned chunks) -> In c chunks.
Proof. intros H; apply filter_In in H as [H _]; exact H. Qed.

(** ** Every run of the speech loop *)

Section SpeechRuns.

Variable generateContent :
  nat -> jsstring -> jsstring -> outcome (option jsstring).
Variable base64ToBytes : jsstring -> option bytes.
Variable bytesToBase64 : bytes -> jsstring.

(** Whatever the collaborator answers, the requests sent are the first
    [k] planned requests, for some [k]. *)
Lemma speechLoop_sent (voiceName : jsstring) (chunks : list jsstring) :
  forall st : speechState,
    exists k,
      fst (speechLoop generateContent base64ToBytes chunks voiceName st) =
        requests st ++ firstn k (asRequests voiceName (planned chunks)).
Proof.
  induction chunks as [|chunk chunks IH]; intros st.
  - exists 0%nat; simpl; rewrite app_nil_r; reflexivity.
  - cbn [speechLoop]; rewrite planned_cons.
    destruct (isFalsy (trim chunk)); [apply IH|].
    assert (forall aps,
              exists k,
                fst (speechLoop generateContent base64ToBytes chunks voiceName
                       (mkSpeech (requests st ++ [(chunk, voiceName)]) aps)) =
                requests st ++
                  firstn k (asRequests voiceName (chunk :: planned chunks)))
      as Hnext.
    { intros aps.
      destruct (IH (mkSpeech (requests st ++ [(chunk, voiceName)]) aps))
        as (k & Hk).
      exists (S k); rewrite Hk; simpl; rewrite <- app_assoc; reflexivity. }
    destruct (generateContent (length (requests st)) chunk voiceName)
      as [[base64Audio|]|]; [| apply Hnext | exists 1%nat; reflexivity].
    destruct (isFalsy base64Audio); [apply Hnext|].
    destruct (base64ToBytes base64Audio); [apply Hnext|].
    exists 1%nat; reflexivity.
Qed.

(** When the loop ends without an exception, every planned request was
    sent, none was rejected, and the parts collected are the decoded
    payloads. *)
Lemma speechLoop_ends (voiceName : jsstring) (chunks : list jsstring) :
  forall (st : speechState) (sent : list (jsstring * jsstring))
         (collected : list bytes),
    speechLoop generateContent base64ToBytes chunks voiceName st =
      (sent, Some collected) ->
    sent = requests st ++ asRequests voiceName (planned chunks) /\
    Forall (fun r => r <> Rejected)
           (outcomesFrom generateContent (length (requests st))
                         (planned chunks) voiceName) /\
    exists parts,
      decodePayloads base64ToBytes
        (outcomesFrom generateContent (length (requests st))
                      (planned chunks) voiceName) = Some parts /\
      collected = audioParts st ++ parts.
Proof.
  induction chunks as [|chunk chunks IH]; intros st sent collected Hrun.
  - simpl in Hrun; injection Hrun as <- <-.
    simpl; rewrite !app_nil_r.
    split; [reflexivity|]; split; [constructor|].
    exists []; split; [reflexivity | rewrite app_nil_r; reflexivity].
  - cbn [speechLoop] in Hrun; rewrite planned_cons.
    destruct (isFalsy (trim chunk)); [apply IH; exact Hrun|].
    cbn [outcomesFrom asRequests map decodePayloads].
    assert (forall aps,
              length (requests (mkSpeech (requests st ++ [(chunk, voiceName)]) aps))
              = S (length (requests st))) as Hlen
      by (intros aps; simpl; rewrite length_app; simpl; lia).
    destruct (generateContent (length (requests st)) chunk voiceName)
      as [[base64Audio|]|] eqn:Eout; [| |discriminate Hrun];
      cbn [payloadOf].
    + destruct (isFalsy base64Audio); cbv iota.
      * apply IH in Hrun as (Hsent & Hok & parts & Hdec & Hcol).
        rewrite Hlen in Hok, Hdec; simpl in Hsent, Hcol.
        split; [rewrite Hsent, <- app_assoc; reflexivity|].
        split; [constructor; [discriminate | exact Hok]|].
        exists parts; split; assumption.
      * destruct (base64ToBytes base64Audio) as [part|];
          [|discriminate Hrun].
        apply IH in Hrun as (Hsent & Hok & parts & Hdec & Hcol).
        rewrite Hlen in Hok, Hdec; simpl in Hsent, Hcol.
        split; [rewrite Hsent, <- app_assoc; reflexivity|].
        split; [constructor; [discriminate | exact Hok]|].
        exists (part :: parts); rewrite Hdec; split; [reflexivity|].
        rewrite Hcol, <- app_assoc; reflexivity.
    + apply IH in Hrun as (Hsent & Hok & parts & Hdec & Hcol).
      rewrite Hlen in Hok, Hdec; simpl in Hsent, Hcol.
      split; [rewrite Hsent, <- app_assoc; reflexivity|].
      split; [constructor; [discriminate | exact Hok]|].
      exists parts; split; assumption.
Qed.

(** If the payload of the request planned as number [i] does not decode,
    the loop is left by the exception at that request or before it. *)
Lemma speechLoop_undecodable (voiceName : jsstring) (chunks : list jsstring) :
  forall (st : speechState) (i : nat) (r : outcome (option jsstring))
         (b : jsstring),
    nth_error (outcomesFrom generateContent (length (requests st))
                            (planned chunks) voiceName) i = Some r ->
    payloadOf r = Some b -> base64ToBytes b = None ->
    exists k,
      (k <= i + 1)%nat /\
      speechLoop generateContent base64ToBytes chunks voiceName st =
        (requests st ++ firstn k (asRequests voiceName (planned chunks)),
         None).
Proof.
  induction chunks as [|chunk chunks IH]; intros st i r b Hnth Hpay Hbad.
  - destruct i; discriminate Hnth.
  - cbn [speechLoop]; rewrite planned_cons in *.
    destruct (isFalsy (trim chunk)); [eapply IH; eassumption|].
    cbn [outcomesFrom asRequests map] in *.
    assert (forall aps,
              length (requests (mkSpeech (requests st ++ [(chunk, voiceName)]) aps))
              = S (length (requests st))) as Hlen
      by (intros aps; simpl; rewrite length_app; simpl; lia).
    assert (forall aps i',
              i = S i' ->
              exists k,
                (k <= i + 1)%nat /\
                speechLoop generateContent base64ToBytes chunks voiceName
                  (mkSpeech (requests st ++ [(chunk, voiceName)]) aps) =
                (requests st ++
                   firstn k ((chunk, voiceName)
                             :: map (fun c => (c, voiceName)) (planned chunks)),
                 None)) as Hnext.
    { intros aps i' ->; simpl in Hnth.
      destruct (IH (mkSpeech (requests st ++ [(chunk, voiceName)]) aps) i' r b)
        as (k & Hk & Hrun); [rewrite Hlen; exact Hnth | exact Hpay | exact Hbad |].
      exists (S k); split; [lia|].
      rewrite Hrun; simpl; rewrite <- app_assoc; reflexivity. }
    destruct i as [|i'].
    + simpl in Hnth; injection Hnth as Hr.
      rewrite Hr.
      destruct r as [[b'|]|]; simpl in Hpay; try discriminate Hpay.
      destruct (isFalsy b'); [discriminate Hpay|].
      injection Hpay as ->; rewrite Hbad.
      exists 1%nat; split; [lia | reflexivity].
    + destruct (generateContent (length (requests st)) chunk voiceName)
        as [[base64Audio|]|];
        [| eapply Hnext; reflexivity | exists 1%nat; split; [lia | reflexivity]].
      destruct (isFalsy base64Audio); [eapply Hnext; reflexivity|].
      destruct (base64ToBytes base64Audio);
        [eapply Hnext; reflexivity | exists 1%nat; split; [lia | reflexivity]].
Qed.

Lemma generateSpeech_blank (text voiceName : jsstring) :
  Forall (fun c => isWhiteSpace c = true) text ->
  generateSpeech generateContent base64ToBytes bytesToBase64 text voiceName
    = Some ([], Err SPEECH_FAILED).
Proof.
  intros Hwhite.
  destruct (splitTextSafe_cuts text TTS_CHUNK_SIZE) as (chunks & Hrun & Hcuts);
    [unfold TTS_CHUNK_SIZE; lia|].
  assert (concat chunks = text) as Hcat
    by (apply (Cuts_concat text TTS_CHUNK_SIZE 0 chunks);
        [unfold TTS_CHUNK_SIZE; lia | lia | exact Hcuts]).
  assert (planned chunks = []) as Hnone
    by (apply planned_white, Forall_concat; rewrite Hcat; exact Hwhite).
  unfold generateSpeech; rewrite Hrun.
  rewrite (speechLoop_completes generateContent base64ToBytes voiceName chunks
             (mkSpeech [] []) []);
    rewrite ?Hnone; try reflexivity.
  constructor.
Qed.

(** X3.  A text that holds white space only, the empty text included,
    makes [generateSpeech] send no request at all and fail with the
    speech error. *)
Theorem generateSpeech_blank_text (text voiceName : jsstring) :
  Forall (fun c => isWhiteSpace c = true) text ->
  generateSpeech generateContent base64ToBytes bytesToBase64 text voiceName
    = Some ([], Err SPEECH_FAILED).
Proof. exact (generateSpeech_blank text voiceName). Qed.

Lemma generateSpeech_returns (text voiceName : jsstring) :
  exists sent outcome,
    generateSpeech generateContent base64ToBytes bytesToBase64 text voiceName
      = Some (sent, outcome).
Proof.
  destruct (chunker_returns text) as (chunks & Hrun).
  unfold generateSpeech; rewrite Hrun.
  destruct (speechLoop generateContent base64ToBytes chunks voiceName
              (mkSpeech [] [])) as [sent loopEnd].
  exists sent, (finishSpeech bytesToBase64 loopEnd); reflexivity.
Qed.

(** X4.  Whatever the collaborator answers, [generateSpeech] returns, and
    the requests it has sent are the first [k] non-blank chunks of the
    text, in chunk order, each with the given voice name; every chunk
    sent holds a code unit that is not white space and has at most
    [TTS_CHUNK_SIZE + 1] code units. *)
Theorem generateSpeech_requests (text voiceName : jsstring) :
  exists chunks k outcome,
    splitTextSafe text TTS_CHUNK_SIZE = Some chunks /\
    generateSpeech generateContent base64ToBytes bytesToBase64 text voiceName
      = Some (asRequests voiceName (firstn k (planned chunks)), outcome) /\
    Forall (fun c => isFalsy (trim c) = false /\
                     0 < len c <= TTS_CHUNK_SIZE + 1)
           (firstn k (planned chunks)).
Proof.
  destruct (splitTextSafe_cuts text TTS_CHUNK_SIZE) as (chunks & Hrun & Hcuts);
    [unfold TTS_CHUNK_SIZE; lia|].
  destruct (speechLoop_sent voiceName chunks (mkSpeech [] [])) as (k & Hk).
  simpl in Hk.
  destruct (speechLoop generateContent base64ToBytes chunks voiceName
              (mkSpeech [] [])) as [sent loopEnd] eqn:Eloop.
  simpl in Hk; subst sent.
  exists chunks, k, (finishSpeech bytesToBase64 loopEnd).
  split; [exact Hrun|]; split.
  - unfold generateSpeech; rewrite Hrun, Eloop.
    unfold asRequests; rewrite firstn_map; reflexivity.
  - apply Forall_forall; intros c Hc.
    assert (In c (planned chunks)) as Hin
      by (rewrite <- (firstn_skipn k (planned chunks)); apply in_or_app;
          left; exact Hc).
    split.
    + pose proof (planned_not_blank chunks) as Hnb.
      rewrite Forall_forall in Hnb; apply Hnb; exact Hin.
    + pose proof (Cuts_chunk_shape text TTS_CHUNK_SIZE 0 chunks) as Hshape.
      rewrite Forall_forall in Hshape.
      apply Hshape;
        [unfold TTS_CHUNK_SIZE; lia | lia | exact Hcuts |
         apply planned_subset; exact Hin].
Qed.

(** X5.  When [generateSpeech] returns a value, every non-blank chunk of
    the text was sent, no request was rejected, at least one payload was
    present, every payload decoded, and the value is the base64 text of
    the decoded payloads concatenated in chunk order. *)
Theorem generateSpeech_success (text voiceName : jsstring)
    (sent : list (jsstring * jsstring)) (value : jsstring) :
  generateSpeech generateContent base64ToBytes bytesToBase64 text voiceName
    = Some (sent, Ok value) ->
  exists chunks parts,
    splitTextSafe text TTS_CHUNK_SIZE = Some chunks /\
    sent = asRequests voiceName (planned chunks) /\
    Forall (fun r => r <> Rejected)
           (outcomesFrom generateContent 0 (planned chunks) voiceName) /\
    decodePayloads base64ToBytes
      (outcomesFrom generateContent 0 (planned chunks) voiceName) = Some parts /\
    parts <> [] /\
    value = bytesToBase64 (concatenateBytes parts).
Proof.
  unfold generateSpeech; intros Hrun.
  destruct (splitTextSafe text TTS_CHUNK_SIZE) as [chunks|]; [|discriminate].
  destruct (speechLoop generateContent base64ToBytes chunks voiceName
              (mkSpeech [] [])) as [sent' loopEnd] eqn:Eloop.
  injection Hrun as <- Hfin.
  destruct loopEnd as [collected|]; [|discriminate Hfin].
  apply speechLoop_ends in Eloop as (Hsent & Hok & parts & Hdec & Hcol).
  simpl in Hsent, Hok, Hdec, Hcol; subst collected.
  exists chunks, parts.
  split; [reflexivity|]; split; [exact Hsent|]; split; [exact Hok|].
  split; [exact Hdec|].
  destruct parts as [|part parts]; [discriminate Hfin|].
  split; [discriminate|].
  injection Hfin as <-; reflexivity.
Qed.

(** X6.  If the payload of a planned request does not decode,
    [generateSpeech] fails with the speech error, and the requests sent
    stop at that request at the latest. *)
Theorem generateSpeech_undecodable (text voiceName : jsstring) :
  exists chunks,
    splitTextSafe text TTS_CHUNK_SIZE = Some chunks /\
    forall i r b,
      nth_error (outcomesFrom generateContent 0 (planned chunks) voiceName) i
        = Some r ->
      payloadOf r = Some b -> base64ToBytes b = None ->
      exists k,
        (k <= i + 1)%nat /\
        generateSpeech generateContent base64ToBytes bytesToBase64
                       text voiceName =
          Some (firstn k (asRequests voiceName (planned chunks)),
                Err SPEECH_FAILED).
Proof.
  destruct (splitTextSafe_cuts text TTS_CHUNK_SIZE) as (chunks & Hrun & _);
    [unfold TTS_CHUNK_SIZE; lia|].
  exists chunks; split; [exact Hrun|].
  intros i r b Hnth Hpay Hbad.
  destruct (speechLoop_undecodable voiceName chunks (mkSpeech [] []) i r b
              Hnth Hpay Hbad) as (k & Hk & Hloop).
  exists k; split; [exact Hk|].
  unfold generateSpeech; rewrite Hrun, Hloop; reflexivity.
Qed.

(** X7.  A text of at most [TTS_CHUNK_SIZE] code units is never split:
    [generateSpeech] sends exactly one request, carrying the whole text,
    when the text is not blank, and none when it is. *)
Theorem generateSpeech_short_text (text voiceName : jsstring) :
  len text <= TTS_CHUNK_SIZE ->
  exists outcome,
    generateSpeech generateContent base64ToBytes bytesToBase64 text voiceName
      = Some (if isFalsy (trim text) then [] else [(text, voiceName)],
              outcome).
Proof.
  intros Hshort.
  assert (splitTextSafe text TTS_CHUNK_SIZE
          = Some (match text with [] => [] | _ => [text] end)) as Hrun.
  { unfold splitTextSafe; cbn [splitLoop].
    destruct text as [|c text]; [reflexivity|].
    destruct (Z.ltb_spec 0 (len (c :: text))) as [_|Hneg];
      [|unfold len in Hneg; simpl in Hneg; lia].
    destruct (Z.leb_spec (len (c :: text) - 0) TTS_CHUNK_SIZE); [|lia].
    rewrite sliceFrom_inside by (unfold len; simpl; lia).
    reflexivity. }
  unfold generateSpeech; rewrite Hrun.
  destruct text as [|c text]; [eexists; reflexivity|].
  cbn [speechLoop].
  destruct (isFalsy (trim (c :: text))); [eexists; reflexivity|].
  simpl.
  destruct (generateContent 0%nat (c :: text) voiceName) as [[b|]|];
    [| eexists; reflexivity | eexists; reflexivity].
  destruct (isFalsy b); [eexists; reflexivity|].
  destruct (base64ToBytes b); eexists; reflexivity.
Qed.

End SpeechRuns.

Lemma generateSpeech_blank_text_witness :
  generateSpeech (fun _ _ _ => Resolved (Some (lit "QUJD"))) rawDecode rawEncode
                 [SPACE; NEWLINE; 9%N; SPACE] (lit "Kore")
    = Some ([], Err SPEECH_FAILED).
Proof.
  apply (generateSpeech_blank_text
           (fun _ _ _ => Resolved (Some (lit "QUJD"))) rawDecode rawEncode
           [SPACE; NEWLINE; 9%N; SPACE] (lit "Kore")).
  repeat constructor.
Defined.

Lemma generateSpeech_success_witness :
  exists chunks parts,
    splitTextSafe (lit "Good evening.") TTS_CHUNK_SIZE = Some chunks /\
    [(lit "Good evening.", lit "Kore")]
      = asRequests (lit "Kore") (planned chunks) /\
    Forall (fun r => r <> Rejected)
           (outcomesFrom (fun _ _ _ => Resolved (Some (lit "QUJD"))) 0
                         (planned chunks) (lit "Kore")) /\
    decodePayloads rawDecode
      (outcomesFrom (fun _ _ _ => Resolved (Some (lit "QUJD"))) 0
                    (planned chunks) (lit "Kore")) = Some parts /\
    parts <> [] /\
    lit "QUJD" = rawEncode (concatenateBytes parts).
Proof.
  apply (generateSpeech_success
           (fun _ _ _ => Resolved (Some (lit "QUJD"))) rawDecode rawEncode
           (lit "Good evening.") (lit "Kore")).
  vm_compute; reflexivity.
Defined.

Lemma generateSpeech_undecodable_witness :
  exists k,
    (k <= 1)%nat /\
    generateSpeech (fun _ _ _ => Resolved (Some (lit "@@")))
                   (fun _ => None) rawEncode
                   (lit "Good evening.") (lit "Kore")
      = Some (firstn k [(lit "Good evening.", lit "Kore")], Err SPEECH_FAILED).
Proof.
  destruct (generateSpeech_undecodable
              (fun _ _ _ => Resolved (Some (lit "@@")))
              (fun _ => None) rawEncode
              (lit "Good evening.") (lit "Kore")) as (chunks & Hrun & H).
  vm_compute in Hrun; injection Hrun as <-.
  apply (H 0%nat (Resolved (Some (lit "@@"))) (lit "@@")); reflexivity.
Defined.

Lemma generateSpeech_short_text_witness :
  exists outcome,
    generateSpeech (fun _ _ _ => Rejected) rawDecode rawEncode
                   (lit "Good evening.") (lit "Kore")
      = Some ([(lit "Good evening.", lit "Kore")], outcome).
Proof.
  apply (generateSpeech_short_text (fun _ _ _ => Rejected) rawDecode rawEncode
           (lit "Good evening.") (lit "Kore")).
  vm_compute; discriminate.
Defined.

(* ================================================================== *)
(** * Part V. Further properties of the waveform *)
(* ================================================================== *)

Section WaveformCoverage.

Local Open Scope Q_scope.

Lemma firstn_plus (l : list Q) (a b : nat) :
  firstn (a + b) l = firstn a l ++ firstn b (skipn a l).
Proof.
  revert l; induction a as [|a IH]; intros l; [reflexivity|].
  destruct l as [|x l]; simpl; [rewrite firstn_nil; reflexivity|].
  f_equal; apply IH.
Qed.

Lemma windows_prefix (data : list Q) (step w : nat) :
  concat (map (window data step) (seq 0 w)) = firstn (w * step) data.
Proof.
  induction w as [|w IH]; [reflexivity|].
  rewrite seq_S, map_app, concat_app, IH; simpl.
  rewrite app_nil_r.
  replace (step + w * step)%nat with (w * step + step)%nat by lia.
  rewrite firstn_plus; reflexivity.
Qed.

Lemma window_nth (data : list Q) (step i k : nat) :
  (k < step)%nat ->
  nth_error (window data step i) k = nth_error data (i * step + k).
Proof.
  intros Hk; unfold window.
  rewrite nth_error_firstn, nth_error_skipn.
  destruct (Nat.ltb_spec k step); [reflexivity | lia].
Qed.

Lemma ceilDiv_positive (n width : nat) :
  (1 <= width)%nat -> (0 < n)%nat -> (0 < ceilDiv n width)%nat.
Proof.
  intros Hw Hn.
  pose proof (ceilDiv_ceiling n width Hw) as [Hle _].
  destruct (ceilDiv n width); [simpl in Hle; lia | lia].
Qed.

(** X8.  For a canvas at least one pixel wide, the windows of the columns,
    taken from left to right, are consecutive pieces of the sample array
    and together make up the whole array: the inner loop of column [i]
    reads exactly the samples of window [i], and no sample is left out or
    read for two columns. *)
Theorem drawWaveform_windows_cover (data : list Q) (width : nat) :
  (1 <= width)%nat ->
  let step := ceilDiv (length data) width in
  (forall i,
     scanColumn data step i =
       fold_left scanDatum (window data step i) (mkColumn (1 # 1) (-1 # 1))) /\
  concat (map (window data step) (seq 0 width)) = data.
Proof.
  intros Hw step; split; [intros i; apply scanColumn_window|].
  rewrite windows_prefix.
  apply firstn_all2.
  pose proof (ceilDiv_ceiling (length data) width Hw) as [Hle _].
  fold step in Hle; lia.
Qed.

Lemma drawWaveform_windows_cover_witness :
  concat (map (window [1 # 2; -1 # 4; 3 # 4; 0 # 1; -1 # 2] 2) (seq 0 3))
    = [1 # 2; -1 # 4; 3 # 4; 0 # 1; -1 # 2].
Proof.
  apply (drawWaveform_windows_cover [1 # 2; -1 # 4; 3 # 4; 0 # 1; -1 # 2] 3).
  lia.
Defined.

(** X9.  For a canvas at least one pixel wide, every sample lies within
    the bar of its column: sample [j] belongs to column
    [j / step], that column is drawn, and its [min] is at most the sample
    and its [max] at least the sample. *)
Theorem drawWaveform_sample_in_bar (data : list Q) (width j : nat) (x : Q) :
  (1 <= width)%nat ->
  nth_error data j = Some x ->
  let step := ceilDiv (length data) width in
  exists col,
    (j / step < width)%nat /\
    nth_error (drawWaveform data width) (j / step) = Some col /\
    cmin col <= x /\ x <= cmax col.
Proof.
  intros Hw Hx step.
  assert (j < length data)%nat as Hj
    by (apply nth_error_Some; rewrite Hx; discriminate).
  assert (0 < step)%nat as Hstep by (apply ceilDiv_positive; lia).
  pose proof (ceilDiv_ceiling (length data) width Hw) as [Hle _].
  fold step in Hle.
  assert (j / step < width)%nat as Hcol
    by (apply Nat.Div0.div_lt_upper_bound; nia).
  assert (In x (window data step (j / step))) as Hin.
  { apply (nth_error_In _ (j mod step)).
    rewrite window_nth by (apply Nat.mod_upper_bound; lia).
    rewrite <- Hx; f_equal.
    pose proof (Nat.div_mod_eq j step); lia. }
  exists (mkColumn (minOf (1 # 1) (window data step (j / step)))
                   (maxOf (-1 # 1) (window data step (j / step)))).
  split; [exact Hcol|]; split.
  - unfold drawWaveform; fold step.
    rewrite nth_error_map.
    rewrite (nth_error_nth' _ 0%nat) by (rewrite length_seq; exact Hcol).
    rewrite seq_nth by exact Hcol; simpl.
    rewrite scanColumn_window, fold_scanDatum; reflexivity.
  - simpl; split.
    + apply minOf_bounds; exact Hin.
    + apply maxOf_bounds; exact Hin.
Qed.

Lemma drawWaveform_sample_in_bar_witness :
  exists col,
    (3 / 2 < 3)%nat /\
    nth_error (drawWaveform [1 # 2; -1 # 4; 3 # 4; 0 # 1; -1 # 2] 3) (3 / 2)
      = Some col /\
    cmin col <= 0 # 1 /\ 0 # 1 <= cmax col.
Proof.
  apply (drawWaveform_sample_in_bar
           [1 # 2; -1 # 4; 3 # 4; 0 # 1; -1 # 2] 3 3 (0 # 1)).
  - lia.
  - reflexivity.
Defined.

(** X10.  A column's [min] is at most its [max] exactly when its window
    holds a sample, that is when the window starts inside the sample
    array; a column whose window is empty has [min] above [max]. *)
Theorem drawWaveform_bar_upright (data : list Q) (width i : nat) :
  (i < width)%nat ->
  let step := ceilDiv (length data) width in
  exists col,
    nth_error (drawWaveform data width) i = Some col /\
    (cmin col <= cmax col <-> (i * step < length data)%nat).
Proof.
  intros Hi step.
  exists (mkColumn (minOf (1 # 1) (window data step i))
                   (maxOf (-1 # 1) (window data step i))).
  split.
  - unfold drawWaveform; fold step.
    rewrite nth_error_map.
    rewrite (nth_error_nth' _ 0%nat) by (rewrite length_seq; exact Hi).
    rewrite seq_nth by exact Hi; simpl.
    rewrite scanColumn_window, fold_scanDatum; reflexivity.
  - simpl.
    destruct (Nat.lt_ge_cases (i * step) (length data)) as [Hin | Hout].
    + split; [intros _; exact Hin | intros _].
      assert (0 < step)%nat as Hstep
        by (apply ceilDiv_positive; lia).
      destruct (nth_error data (i * step)) as [x|] eqn:Ex;
        [|apply nth_error_None in Ex; lia].
      assert (In x (window data step i)) as Hx.
      { apply (nth_error_In _ 0%nat).
        rewrite window_nth by exact Hstep.
        rewrite Nat.add_0_r; exact Ex. }
      eapply Qle_trans; [apply minOf_bounds | apply maxOf_bounds]; exact Hx.
    + assert (window data step i = []) as Hempty
        by (unfold window; rewrite skipn_all2 by lia; apply firstn_nil).
      rewrite Hempty; simpl.
      split; [intros H; exfalso; revert H; apply Qlt_not_le; reflexivity | lia].
Qed.

Lemma drawWaveform_bar_upright_witness :
  exists col,
    nth_error (drawWaveform [1 # 2; -1 # 4; 3 # 4] 4) 3 = Some col /\
    (cmin col <= cmax col <-> (3 * ceilDiv 3 4 < 3)%nat).
Proof.
  apply (drawWaveform_bar_upright [1 # 2; -1 # 4; 3 # 4] 4 3).
  lia.
Defined.

End WaveformCoverage.

(* ================================================================== *)
(** * Part VI. Document extraction *)
(* ================================================================== *)

(** ** [fileToGenerativePart] and [extractTextAndLanguage] *)

Definition COMMA : N := 44.

(** [s.split(sep)] for a separator of one code unit: the pieces between
    the occurrences of [sep], in order; never the empty array. *)
Fixpoint split (sep : N) (s : jsstring) : list jsstring :=
  match s with
  | [] => [[]]
  | c :: s' =>
      if (c =? sep)%N then [] :: split sep s'
      else match split sep s' with
           | piece :: pieces => (c :: piece) :: pieces
           | [] => [[c]]
           end
  end.

(** [(reader.result as string).split(',')[1]]; [None] is [undefined]. *)
Definition base64Part (dataUrl : jsstring) : option jsstring :=
  nth_error (split COMMA dataUrl) 1.

(** The part handed to the collaborator: [{ inlineData: { data, mimeType } }]. *)
Record inlineData : Type := mkInlineData {
  data : option jsstring;
  mimeType : jsstring
}.

(** [fileToGenerativePart(file)]: [read] is how [reader.readAsDataURL]
    settles, with the data URL when it loads; [fileType] is [file.type]. *)
Definition fileToGenerativePart (read : outcome jsstring) (fileType : jsstring)
  : outcome inlineData :=
  match read with
  | Resolved dataUrl => Resolved (mkInlineData (base64Part dataUrl) fileType)
  | Rejected => Rejected
  end.

Definition EXTRACT_FAILED : jsstring :=
  lit "Failed to process document. Please try a different file.".

Section Extraction.

(** What [JSON.parse] returns; the source casts it to [ExtractedDocument]
    without looking at it. *)
Variable json : Type.

(** The extraction collaborator for a file part (the instruction text of
    the request is fixed), with the value of [response.text] when it
    resolves. *)
Variable generateContent : inlineData -> outcome (option jsstring).

(** [JSON.parse]; [None] is a syntax error. *)
Variable parse : jsstring -> option json.

(** [extractTextAndLanguage(file)]. *)
Definition extractTextAndLanguage (read : outcome jsstring)
    (fileType : jsstring) : result json :=
  match fileToGenerativePart read fileType with
  | Rejected => Err EXTRACT_FAILED
  | Resolved filePart =>
      match generateContent filePart with
      | Rejected => Err EXTRACT_FAILED
      | Resolved None => Err EXTRACT_FAILED
      | Resolved (Some jsonText) =>
          if isFalsy jsonText then Err EXTRACT_FAILED
          else match parse jsonText with
               | Some document => Ok document
               | None => Err EXTRACT_FAILED
               end
      end
  end.

End Extraction.

(** ** Properties *)

Lemma split_without (sep : N) (s : jsstring) :
  ~ In sep s -> split sep s = [s].
Proof.
  induction s as [|c s IH]; intros Hno; [reflexivity|].
  simpl; destruct (N.eqb_spec c sep) as [->|Hne];
    [exfalso; apply Hno; left; reflexivity|].
  rewrite IH by (intros H; apply Hno; right; exact H); reflexivity.
Qed.

Lemma split_at_first (sep : N) (head tail : jsstring) :
  ~ In sep head -> split sep (head ++ sep :: tail) = head :: split sep tail.
Proof.
  induction head as [|c head IH]; intros Hno; simpl.
  - rewrite N.eqb_refl; reflexivity.
  - destruct (N.eqb_spec c sep) as [->|Hne];
      [exfalso; apply Hno; left; reflexivity|].
    rewrite IH by (intros H; apply Hno; right; exact H); reflexivity.
Qed.

Lemma split_pieces (sep : N) (s : jsstring) :
  Forall (fun piece => ~ In sep piece) (split sep s).
Proof.
  induction s as [|c s IH]; simpl; [constructor; [intros []|constructor]|].
  destruct (N.eqb_spec c sep) as [->|Hne].
  - constructor; [intros [] | exact IH].
  - destruct (split sep s) as [|piece pieces].
    + constructor; [|constructor].
      intros [H | []]; congruence.
    + inversion IH as [|? ? Hpiece Hrest]; subst.
      constructor; [|exact Hrest].
      intros [H | H]; [congruence | exact (Hpiece H)].
Qed.

(** X11.  [fileToGenerativePart] hands on the text between the first and
    the second comma of the data URL: for a URL made of a header without
    a comma, a comma and a payload without a comma, optionally followed
    by a comma and more, the data is the payload; for a URL without a
    comma the data is [undefined]; and the data never holds a comma. *)
Theorem fileToGenerativePart_payload (fileType : jsstring) :
  (forall header payload,
     ~ In COMMA header -> ~ In COMMA payload ->
     fileToGenerativePart (Resolved (header ++ COMMA :: payload)) fileType
       = Resolved (mkInlineData (Some payload) fileType) /\
     forall more,
       fileToGenerativePart
         (Resolved (header ++ COMMA :: payload ++ COMMA :: more)) fileType
       = Resolved (mkInlineData (Some payload) fileType)) /\
  (forall dataUrl,
     ~ In COMMA dataUrl ->
     fileToGenerativePart (Resolved dataUrl) fileType
       = Resolved (mkInlineData None fileType)) /\
  (forall dataUrl payload,
     fileToGenerativePart (Resolved dataUrl) fileType
       = Resolved (mkInlineData (Some payload) fileType) ->
     ~ In COMMA payload).
Proof.
  unfold fileToGenerativePart, base64Part; split; [|split].
  - intros header payload Hh Hp; split.
    + rewrite split_at_first, split_without by assumption; reflexivity.
    + intros more.
      rewrite split_at_first, split_at_first by assumption; reflexivity.
  - intros dataUrl Hno.
    rewrite split_without by assumption; reflexivity.
  - intros dataUrl payload H.
    injection H as H.
    change (nth_error (split COMMA dataUrl) 1 = Some payload) in H.
    apply nth_error_In in H.
    pose proof (split_pieces COMMA dataUrl) as Hall.
    rewrite Forall_forall in Hall; apply Hall; exact H.
Qed.

Lemma fileToGenerativePart_payload_witness :
  fileToGenerativePart
    (Resolved (lit "data:text/plain;base64" ++ COMMA :: lit "SGVsbG8="))
    (lit "text/plain")
    = Resolved (mkInlineData (Some (lit "SGVsbG8=")) (lit "text/plain")).
Proof.
  apply (fileToGenerativePart_payload (lit "text/plain")).
  - vm_compute; intuition discriminate.
  - vm_compute; intuition discriminate.
Defined.

Section ExtractionFacts.

Variable json : Type.
Variable generateContent : inlineData -> outcome (option jsstring).
Variable parse : jsstring -> option json.

(** X12.  [extractTextAndLanguage] returns a document exactly when the
    file is read, the collaborator resolves with a non-empty text and
    that text parses, and the document is the parsed value; in every
    other case, an empty response included, it fails with the one
    extraction error. *)
Theorem extractTextAndLanguage_outcome (read : outcome jsstring)
    (fileType : jsstring) :
  (forall document,
     extractTextAndLanguage json generateContent parse read fileType
       = Ok document <->
     exists dataUrl jsonText,
       read = Resolved dataUrl /\
       generateContent (mkInlineData (base64Part dataUrl) fileType)
         = Resolved (Some jsonText) /\
       jsonText <> [] /\
       parse jsonText = Some document) /\
  (forall message,
     extractTextAndLanguage json generateContent parse read fileType
       = Err message -> message = EXTRACT_FAILED).
Proof.
  unfold extractTextAndLanguage, fileToGenerativePart; split.
  - intros document; split.
    + destruct read as [dataUrl|]; [|discriminate].
      destruct (generateContent (mkInlineData (base64Part dataUrl) fileType))
        as [[jsonText|]|] eqn:Ecall; try discriminate.
      destruct jsonText as [|c jsonText]; [discriminate|]; simpl.
      destruct (parse (c :: jsonText)) as [d|] eqn:Eparse; [|discriminate].
      intros H; injection H as <-.
      exists dataUrl, (c :: jsonText).
      repeat split; try assumption; discriminate.
    + intros (dataUrl & jsonText & -> & Hcall & Hne & Hparse).
      rewrite Hcall.
      destruct jsonText as [|c jsonText]; [congruence|]; simpl.
      rewrite Hparse; reflexivity.
  - intros message.
    destruct read as [dataUrl|]; [|intros H; injection H as <-; reflexivity].
    destruct (generateContent (mkInlineData (base64Part dataUrl) fileType))
      as [[jsonText|]|]; try (intros H; injection H as <-; reflexivity).
    destruct (isFalsy jsonText); [intros H; injection H as <-; reflexivity|].
    destruct (parse jsonText); [discriminate|].
    intros H; injection H as <-; reflexivity.
Qed.

End ExtractionFacts.

(* ================================================================== *)
(** * Part VII. The application: states, step indicator, handlers *)
(* ================================================================== *)

(** ** [AppState] and the step indicator *)

Inductive AppState : Type :=
| IDLE | EXTRACTING | REVIEW | TRANSLATING | GENERATING_AUDIO | PLAYBACK
| ERROR.

Definition AppState_eqb (a b : AppState) : bool :=
  match a, b with
  | IDLE, IDLE | EXTRACTING, EXTRACTING | REVIEW, REVIEW
  | TRANSLATING, TRANSLATING | GENERATING_AUDIO, GENERATING_AUDIO
  | PLAYBACK, PLAYBACK | ERROR, ERROR => true
  | _, _ => false
  end.

(** The [id]s of [steps], in order; the labels play no part below. *)
Definition steps : list AppState :=
  [IDLE; EXTRACTING; REVIEW; GENERATING_AUDIO; PLAYBACK].

(** [arr.findIndex(pred)], counting from [i]: [-1] when nothing matches. *)
Fixpoint findIndexFrom {A : Type} (pred : A -> bool) (l : list A) (i : Z) : Z :=
  match l with
  | [] => -1
  | x :: l' => if pred x then i else findIndexFrom pred l' (i + 1)
  end.

(** [getCurrentIndex()]. *)
Definition getCurrentIndex (currentStep : AppState) : Z :=
  match currentStep with
  | TRANSLATING => 3
  | _ => findIndexFrom (fun s => AppState_eqb s currentStep) steps 0
  end.

(** [index <= currentIndex] and [index === currentIndex], for the step
    drawn at position [index]. *)
Definition isActive (currentStep : AppState) (index : Z) : bool :=
  index <=? getCurrentIndex currentStep.

Definition isCurrent (currentStep : AppState) (index : Z) : bool :=
  index =? getCurrentIndex currentStep.

(** The positions [0 .. steps.length - 1] that [steps.map] visits. *)
Definition stepPositions : list Z :=
  map Z.of_nat (seq 0 (length steps)).

(** ** Languages and voices ([constants.ts]) *)

Record SupportedLanguage : Type := mkLanguage {
  code : jsstring;
  name : jsstring;
  voiceName : jsstring
}.

Definition VOICE_OPTIONS : list jsstring :=
  [lit "Puck"; lit "Charon"; lit "Kore"; lit "Fenrir"; lit "Zephyr"].

Definition SUPPORTED_LANGUAGES : list SupportedLanguage :=
  [ mkLanguage (lit "en") (lit "English") (lit "Puck");
    mkLanguage (lit "hi") (lit "Hindi") (lit "Kore");
    mkLanguage (lit "bn") (lit "Bengali") (lit "Kore");
    mkLanguage (lit "gu") (lit "Gujarati") (lit "Kore");
    mkLanguage (lit "ta") (lit "Tamil") (lit "Kore");
    mkLanguage (lit "te") (lit "Telugu") (lit "Kore");
    mkLanguage (lit "mr") (lit "Marathi") (lit "Kore");
    mkLanguage (lit "ur") (lit "Urdu") (lit "Kore");
    mkLanguage (lit "fr") (lit "French") (lit "Zephyr");
    mkLanguage (lit "es") (lit "Spanish") (lit "Fenrir");
    mkLanguage (lit "de") (lit "German") (lit "Charon") ].

(** [SUPPORTED_LANGUAGES.find(l => l.code === targetLang)]. *)
Definition findLanguage (targetLang : jsstring) : option SupportedLanguage :=
  find (fun l => units_eqb (code l) targetLang) SUPPORTED_LANGUAGES.

Section Languages.

(** The host's [String.prototype.toLowerCase]. *)
Variable toLowerCase : jsstring -> jsstring.

(** [detectedLanguage.toLowerCase().includes(l.name.toLowerCase())]. *)
Definition mentions (detectedLanguage : jsstring) (l : SupportedLanguage)
  : bool :=
  includes (toLowerCase detectedLanguage) (toLowerCase (name l)).

(** The language [handleUploadAndExtract] selects after extraction:
    [SUPPORTED_LANGUAGES.find(l => ...includes(...))]. *)
Definition matchedLang (detectedLanguage : jsstring)
  : option SupportedLanguage :=
  find (mentions detectedLanguage) SUPPORTED_LANGUAGES.

End Languages.

(** The voice the effect on [targetLang] selects, if any. *)
Definition defaultVoice (targetLang : jsstring) : option jsstring :=
  option_map voiceName (findLanguage targetLang).

(** ** The handlers of [App]

    A handler is modelled by the state updates it makes, in order. *)

Record ExtractedDocument : Type := mkDocument {
  text : jsstring;
  detectedLanguage : jsstring
}.

(** A value caught by [catch]: an [Error] with its message, or anything
    else. *)
Inductive thrown : Type :=
| ErrorWith (message : jsstring)
| NotAnError.

Section Handlers.

(** The decoded audio of [decodeAudioData] ([utils/audioHelper], not
    among the sources). *)
Variable AudioBuffer : Type.

(** The host's [String.prototype.toLowerCase]. *)
Variable toLowerCase : jsstring -> jsstring.

Inductive update : Type :=
| SetAppState (s : AppState)
| AddLog (message : jsstring)
| SetErrorMsg (message : jsstring)
| SetAudioBuffer (buffer : AudioBuffer)
| SetIsPreviewLoading (loading : bool)
| StartSource (buffer : AudioBuffer)
| Alert (message : jsstring)
| SetExtractedData (document : ExtractedDocument)
| SetTargetLang (code : jsstring).

Variable translateService : jsstring -> outcome (option jsstring).
Variable speechService :
  nat -> jsstring -> jsstring -> outcome (option jsstring).
Variable base64ToBytes : jsstring -> option bytes.
Variable bytesToBase64 : bytes -> jsstring.

(** Creating the audio context and [decodeAudioData(base64Audio, ctx)]:
    the buffer, or what was thrown. *)
Variable decodeAudioData : jsstring -> AudioBuffer + thrown.

(** [err instanceof Error ? err.message : "Generation failed"]. *)
Definition generationMessage (e : thrown) : jsstring :=
  match e with
  | ErrorWith message => message
  | NotAnError => lit "Generation failed"
  end.

(** The [catch] of [handleGenerateAudiobook]. *)
Definition generationFailed (e : thrown) : list update :=
  [SetErrorMsg (generationMessage e); SetAppState ERROR].

(** [handleGenerateAudiobook()]; [None] only if the chunker did not
    return. *)
Definition handleGenerateAudiobook (extractedData : option ExtractedDocument)
    (targetLang selectedVoice : jsstring) : option (list update) :=
  match extractedData with
  | None => Some []
  | Some doc =>
      match findLanguage targetLang with
      | None =>
          Some (generationFailed (ErrorWith (lit "Invalid language selection")))
      | Some selectedLangConfig =>
          let needsTranslation :=
            negb (mentions toLowerCase (detectedLanguage doc) selectedLangConfig) in
          let announce :=
            if needsTranslation
            then [SetAppState TRANSLATING;
                  AddLog (lit "Translating full text to " ++
                          name selectedLangConfig ++ lit "...")]
            else [] in
          let translated :=
            if needsTranslation
            then translateText toLowerCase translateService (text doc)
                               (name selectedLangConfig)
            else Ok (text doc) in
          match translated with
          | Err message => Some (announce ++ generationFailed (ErrorWith message))
          | Ok textToSpeak =>
              let before :=
                announce ++
                (if needsTranslation
                 then [AddLog (lit "Translation complete.")] else []) ++
                [SetAppState GENERATING_AUDIO;
                 AddLog (lit "Generating audio using Gemini TTS (Voice: " ++
                         selectedVoice ++ lit ")...");
                 AddLog (lit "Large documents are processed in chunks...")] in
              match generateSpeech speechService base64ToBytes bytesToBase64
                                   textToSpeak selectedVoice with
              | None => None
              | Some (_, Err message) =>
                  Some (before ++ generationFailed (ErrorWith message))
              | Some (_, Ok base64Audio) =>
                  let assembling :=
                    before ++ [AddLog (lit "Audio generated. Assembling...")] in
                  match decodeAudioData base64Audio with
                  | inr e => Some (assembling ++ generationFailed e)
                  | inl buffer =>
                      Some (assembling ++
                            [SetAudioBuffer buffer; SetAppState PLAYBACK;
                             AddLog (lit "Audiobook ready!")])
                  end
              end
          end
      end
  end.

(** [text.substring(0, n)] for [n >= 0]. *)
Definition substring0 (s : jsstring) (n : nat) : jsstring := firstn n s.

(** [handlePreview()]. *)
Definition handlePreview (extractedData : option ExtractedDocument)
    (targetLang selectedVoice : jsstring) : option (list update) :=
  match extractedData with
  | None => Some []
  | Some doc =>
      let failed := [Alert (lit "Preview generation failed.");
                     SetIsPreviewLoading false] in
      let snippet := substring0 (text doc) 300 in
      let translated :=
        match findLanguage targetLang with
        | Some selectedLangConfig =>
            if negb (mentions toLowerCase (detectedLanguage doc) selectedLangConfig)
            then translateText toLowerCase translateService snippet
                               (name selectedLangConfig)
            else Ok snippet
        | None => Ok snippet
        end in
      match translated with
      | Err _ => Some (SetIsPreviewLoading true :: failed)
      | Ok snippet' =>
          match generateSpeech speechService base64ToBytes bytesToBase64
                               snippet' selectedVoice with
          | None => None
          | Some (_, Err _) => Some (SetIsPreviewLoading true :: failed)
          | Some (_, Ok base64Audio) =>
              match decodeAudioData base64Audio with
              | inr _ => Some (SetIsPreviewLoading true :: failed)
              | inl buffer =>
                  Some [SetIsPreviewLoading true; StartSource buffer;
                        SetIsPreviewLoading false]
              end
          end
      end
  end.

(** The [catch] of [handleUploadAndExtract]:
    [err instanceof Error ? err.message : "Extraction failed"]. *)
Definition extractionFailed (e : thrown) : list update :=
  [SetErrorMsg (match e with
                | ErrorWith message => message
                | NotAnError => lit "Extraction failed"
                end);
   SetAppState ERROR].

(** [handleUploadAndExtract()], for the file chosen, if any: its name and
    how [extractTextAndLanguage(file)] settles.  The parsed response is
    taken to have the two fields its schema requires. *)
Definition handleUploadAndExtract
    (file : option (jsstring * result ExtractedDocument)) : list update :=
  match file with
  | None => []
  | Some (fileName, extraction) =>
      [SetAppState EXTRACTING;
       AddLog (lit "Uploading " ++ fileName ++ lit "...")] ++
      match extraction with
      | Err message => extractionFailed (ErrorWith message)
      | Ok document =>
          [AddLog (lit "Text extracted. Detected language: " ++
                   detectedLanguage document);
           SetExtractedData document] ++
          match matchedLang toLowerCase (detectedLanguage document) with
          | Some matched => [SetTargetLang (code matched)]
          | None => []
          end ++
          [SetAppState REVIEW]
      end
  end.

(** The values [setAppState] is called with, in order. *)
Fixpoint appStates (updates : list update) : list AppState :=
  match updates with
  | [] => []
  | SetAppState s :: rest => s :: appStates rest
  | _ :: rest => appStates rest
  end.

End Handlers.

Arguments SetAppState {AudioBuffer} s.
Arguments AddLog {AudioBuffer} message.
Arguments SetErrorMsg {AudioBuffer} message.
Arguments SetAudioBuffer {AudioBuffer} buffer.
Arguments SetIsPreviewLoading {AudioBuffer} loading.
Arguments StartSource {AudioBuffer} buffer.
Arguments Alert {AudioBuffer} message.
Arguments SetExtractedData {AudioBuffer} document.
Arguments SetTargetLang {AudioBuffer} code.
Arguments extractionFailed {AudioBuffer} e.
Arguments handleUploadAndExtract {AudioBuffer} toLowerCase file.
Arguments generationFailed {AudioBuffer} e.
Arguments appStates {AudioBuffer} updates.
Arguments handleGenerateAudiobook {AudioBuffer}.
Arguments handlePreview {AudioBuffer}.

(** ** The step indicator *)

(** X13.  For every application state the step indicator marks a prefix
    of its five steps as active: the steps up to the current index, which
    lies between 0 and 4 unless the state is [ERROR]; exactly one step is
    the current one.  In the [ERROR] state the index is -1 and no step is
    active or current.  [TRANSLATING] is shown as the step of
    [GENERATING_AUDIO]. *)
Theorem stepIndicator_marks (currentStep : AppState) :
  let currentIndex := getCurrentIndex currentStep in
  (currentIndex = -1 <-> currentStep = ERROR) /\
  (currentStep <> ERROR -> 0 <= currentIndex <= 4) /\
  filter (isActive currentStep) stepPositions =
    map Z.of_nat (seq 0 (Z.to_nat (currentIndex + 1))) /\
  filter (isCurrent currentStep) stepPositions =
    (if AppState_eqb currentStep ERROR then [] else [currentIndex]) /\
  getCurrentIndex TRANSLATING = getCurrentIndex GENERATING_AUDIO.
Proof.
  destruct currentStep; cbv zeta;
    (split; [split; [vm_compute; intros H; discriminate H || reflexivity
                    | intros H; discriminate H || reflexivity]|]);
    (split; [intros H; try congruence; vm_compute; split; discriminate|]);
    repeat split; reflexivity.
Qed.

(** ** The handlers *)

Section HandlerFacts.

Variable AudioBuffer : Type.
Variable toLowerCase : jsstring -> jsstring.
Variable translateService : jsstring -> outcome (option jsstring).
Variable speechService :
  nat -> jsstring -> jsstring -> outcome (option jsstring).
Variable base64ToBytes : jsstring -> option bytes.
Variable bytesToBase64 : bytes -> jsstring.
Variable decodeAudioData : jsstring -> AudioBuffer + thrown.

(** X14.  With a document loaded, [handleGenerateAudiobook] always runs
    to its end.  The application states it sets are [TRANSLATING] (only
    when it translates) and [GENERATING_AUDIO], in this order and cut
    short at the first failure, followed by one final state: [PLAYBACK],
    reached only through [GENERATING_AUDIO] and with the audio buffer set
    and no error message, or [ERROR], with no audio buffer set and
    an error message that is the language error, the translation error,
    the speech error or the message of what decoding threw. *)
Theorem handleGenerateAudiobook_outcome (doc : ExtractedDocument)
    (targetLang selectedVoice : jsstring) :
  exists updates pipeline final,
    handleGenerateAudiobook toLowerCase translateService speechService base64ToBytes
      bytesToBase64 decodeAudioData (Some doc) targetLang selectedVoice
      = Some updates /\
    appStates updates = pipeline ++ [final] /\
    In pipeline [[]; [TRANSLATING]; [GENERATING_AUDIO];
                 [TRANSLATING; GENERATING_AUDIO]] /\
    ((final = PLAYBACK /\
      In GENERATING_AUDIO pipeline /\
      (exists buffer, In (SetAudioBuffer buffer) updates) /\
      (forall message, ~ In (SetErrorMsg message) updates))
     \/
     (final = ERROR /\
      (forall buffer, ~ In (SetAudioBuffer buffer) updates) /\
      exists message,
        In (SetErrorMsg message) updates /\
        (message = lit "Invalid language selection" \/
         message = TRANSLATE_FAILED \/
         message = SPEECH_FAILED \/
         exists base64Audio e,
           decodeAudioData base64Audio = inr e /\
           message = generationMessage e))).
Proof.
  unfold handleGenerateAudiobook.
  destruct (findLanguage targetLang) as [lang|].
  2:{ eexists _, [], ERROR; split; [reflexivity|]; split; [reflexivity|].
      split; [simpl; auto|]; right.
      split; [reflexivity|]; split; [simpl; intuition discriminate|].
      eexists; split; [left; reflexivity | left; reflexivity]. }
  destruct (negb (mentions toLowerCase (detectedLanguage doc) lang)) eqn:Eneeds.
  - unfold translateText.
    destruct (translateService (translateRequest toLowerCase (text doc) (name lang)))
      as [t|].
    2:{ eexists _, [TRANSLATING], ERROR;
          split; [reflexivity|]; split; [reflexivity|].
        split; [simpl; auto|]; right.
        split; [reflexivity|]; split; [simpl; intuition discriminate|].
        eexists; split; [simpl; right; right; left; reflexivity|].
        right; left; reflexivity. }
    destruct (generateSpeech_returns speechService base64ToBytes bytesToBase64
                (textOrEmpty t) selectedVoice) as (sent & [value|m] & Hrun);
      rewrite Hrun.
    + destruct (decodeAudioData value) as [buffer|e] eqn:Edec.
      * eexists _, [TRANSLATING; GENERATING_AUDIO], PLAYBACK;
          split; [reflexivity|]; split; [reflexivity|].
        split; [simpl; auto|]; left.
        split; [reflexivity|]; split; [simpl; auto|].
        split; [exists buffer; simpl; auto 12 | simpl; intuition discriminate].
      * eexists _, [TRANSLATING; GENERATING_AUDIO], ERROR;
          split; [reflexivity|]; split; [reflexivity|].
        split; [simpl; auto|]; right.
        split; [reflexivity|]; split; [simpl; intuition discriminate|].
        eexists; split; [simpl; auto 12|].
        right; right; right; exists value, e; split; [exact Edec | reflexivity].
    + assert (m = SPEECH_FAILED) as ->.
      { unfold generateSpeech in Hrun.
        destruct (splitTextSafe (textOrEmpty t) TTS_CHUNK_SIZE); [|discriminate].
        destruct (speechLoop speechService base64ToBytes l selectedVoice
                    (mkSpeech [] [])) as [s' [[|part parts]|]];
          simpl in Hrun; congruence. }
      eexists _, [TRANSLATING; GENERATING_AUDIO], ERROR;
        split; [reflexivity|]; split; [reflexivity|].
      split; [simpl; auto|]; right.
      split; [reflexivity|]; split; [simpl; intuition discriminate|].
      eexists; split; [simpl; auto 12|].
      right; right; left; reflexivity.
  - destruct (generateSpeech_returns speechService base64ToBytes bytesToBase64
                (text doc) selectedVoice) as (sent & [value|m] & Hrun);
      rewrite Hrun.
    + destruct (decodeAudioData value) as [buffer|e] eqn:Edec.
      * eexists _, [GENERATING_AUDIO], PLAYBACK;
          split; [reflexivity|]; split; [reflexivity|].
        split; [simpl; auto|]; left.
        split; [reflexivity|]; split; [simpl; auto|].
        split; [exists buffer; simpl; auto 12 | simpl; intuition discriminate].
      * eexists _, [GENERATING_AUDIO], ERROR;
          split; [reflexivity|]; split; [reflexivity|].
        split; [simpl; auto|]; right.
        split; [reflexivity|]; split; [simpl; intuition discriminate|].
        eexists; split; [simpl; auto 12|].
        right; right; right; exists value, e; split; [exact Edec | reflexivity].
    + assert (m = SPEECH_FAILED) as ->.
      { unfold generateSpeech in Hrun.
        destruct (splitTextSafe (text doc) TTS_CHUNK_SIZE); [|discriminate].
        destruct (speechLoop speechService base64ToBytes l selectedVoice
                    (mkSpeech [] [])) as [s' [[|part parts]|]];
          simpl in Hrun; congruence. }
      eexists _, [GENERATING_AUDIO], ERROR;
        split; [reflexivity|]; split; [reflexivity|].
      split; [simpl; auto|]; right.
      split; [reflexivity|]; split; [simpl; intuition discriminate|].
      eexists; split; [simpl; auto 12|].
      right; right; left; reflexivity.
Qed.

(** X15.  [handleGenerateAudiobook] translates exactly when the detected
    language does not mention the name of the selected language: when it
    does, the translation collaborator plays no part in the run and
    [TRANSLATING] is never set; when it does not, [TRANSLATING] is the
    first state set. *)
Theorem handleGenerateAudiobook_translation (doc : ExtractedDocument)
    (targetLang selectedVoice : jsstring) (lang : SupportedLanguage) :
  findLanguage targetLang = Some lang ->
  (mentions toLowerCase (detectedLanguage doc) lang = true ->
     (forall otherService,
        handleGenerateAudiobook toLowerCase otherService speechService base64ToBytes
          bytesToBase64 decodeAudioData (Some doc) targetLang selectedVoice
        = handleGenerateAudiobook toLowerCase translateService speechService base64ToBytes
            bytesToBase64 decodeAudioData (Some doc) targetLang selectedVoice) /\
     (forall updates,
        handleGenerateAudiobook toLowerCase translateService speechService base64ToBytes
          bytesToBase64 decodeAudioData (Some doc) targetLang selectedVoice
        = Some updates ->
        ~ In TRANSLATING (appStates updates))) /\
  (mentions toLowerCase (detectedLanguage doc) lang = false ->
     forall updates,
       handleGenerateAudiobook toLowerCase translateService speechService base64ToBytes
         bytesToBase64 decodeAudioData (Some doc) targetLang selectedVoice
       = Some updates ->
       hd_error (appStates updates) = Some TRANSLATING).
Proof.
  intros Hlang; unfold handleGenerateAudiobook; rewrite Hlang; split.
  - intros ->; cbn [negb]; split; [reflexivity|].
    intros updates Hrun.
    destruct (generateSpeech speechService base64ToBytes bytesToBase64
                (text doc) selectedVoice) as [[sent [value|m]]|];
      [| |discriminate Hrun].
    + destruct (decodeAudioData value); injection Hrun as <-;
        simpl; intuition discriminate.
    + injection Hrun as <-; simpl; intuition discriminate.
  - intros ->; cbn [negb].
    intros updates Hrun.
    destruct (translateText toLowerCase translateService (text doc) (name lang))
      as [textToSpeak|m]; [|injection Hrun as <-; reflexivity].
    destruct (generateSpeech speechService base64ToBytes bytesToBase64
                textToSpeak selectedVoice) as [[sent [value|m]]|];
      [| |discriminate Hrun].
    + destruct (decodeAudioData value); injection Hrun as <-; reflexivity.
    + injection Hrun as <-; reflexivity.
Qed.

(** X16.  When the translation comes back absent, empty or blank, the
    run does not stop at the translation: it goes on to
    [GENERATING_AUDIO], sends no speech request, and ends in [ERROR] with
    the speech error as its message. *)
Theorem handleGenerateAudiobook_blank_translation (doc : ExtractedDocument)
    (targetLang selectedVoice : jsstring) (lang : SupportedLanguage)
    (t : option jsstring) :
  findLanguage targetLang = Some lang ->
  mentions toLowerCase (detectedLanguage doc) lang = false ->
  translateService (translateRequest toLowerCase (text doc) (name lang)) = Resolved t ->
  Forall (fun c => isWhiteSpace c = true) (textOrEmpty t) ->
  handleGenerateAudiobook toLowerCase translateService speechService base64ToBytes
    bytesToBase64 decodeAudioData (Some doc) targetLang selectedVoice
  = Some [ SetAppState TRANSLATING;
           AddLog (lit "Translating full text to " ++ name lang ++ lit "...");
           AddLog (lit "Translation complete.");
           SetAppState GENERATING_AUDIO;
           AddLog (lit "Generating audio using Gemini TTS (Voice: " ++
                   selectedVoice ++ lit ")...");
           AddLog (lit "Large documents are processed in chunks...");
           SetErrorMsg SPEECH_FAILED;
           SetAppState ERROR ].
Proof.
  intros Hlang Hneeds Hcall Hblank.
  unfold handleGenerateAudiobook, translateText.
  rewrite Hlang, Hneeds, Hcall; cbn [negb].
  rewrite (generateSpeech_blank speechService base64ToBytes bytesToBase64
             (textOrEmpty t) selectedVoice Hblank).
  reflexivity.
Qed.

(** X17.  With a document loaded, [handlePreview] always runs to its end;
    it first sets the loading flag and last clears it, whatever fails in
    between, and it never changes the application state, the error
    message or the audio buffer of the page. *)
Theorem handlePreview_loading_flag (doc : ExtractedDocument)
    (targetLang selectedVoice : jsstring) :
  exists middle,
    handlePreview toLowerCase translateService speechService base64ToBytes bytesToBase64
      decodeAudioData (Some doc) targetLang selectedVoice
      = Some (SetIsPreviewLoading true :: middle ++ [SetIsPreviewLoading false])
    /\
    ((exists buffer, middle = [StartSource buffer]) \/
     middle = [Alert (lit "Preview generation failed.")]).
Proof.
  unfold handlePreview.
  set (translated :=
         match findLanguage targetLang with
         | Some selectedLangConfig =>
             if negb (mentions toLowerCase (detectedLanguage doc) selectedLangConfig)
             then translateText toLowerCase translateService
                                (substring0 (text doc) 300)
                                (name selectedLangConfig)
             else Ok (substring0 (text doc) 300)
         | None => Ok (substring0 (text doc) 300)
         end).
  destruct translated as [snippet|m].
  - destruct (generateSpeech_returns speechService base64ToBytes bytesToBase64
                snippet selectedVoice) as (sent & [value|m] & Hrun);
      rewrite Hrun.
    + destruct (decodeAudioData value) as [buffer|e].
      * exists [StartSource buffer]; split;
          [reflexivity | left; exists buffer; reflexivity].
      * exists [Alert (lit "Preview generation failed.")]; split;
          [reflexivity | right; reflexivity].
    + exists [Alert (lit "Preview generation failed.")]; split;
        [reflexivity | right; reflexivity].
  - exists [Alert (lit "Preview generation failed.")]; split;
      [reflexivity | right; reflexivity].
Qed.

(** X19.  With a file chosen, [handleUploadAndExtract] sets
    [EXTRACTING] and then either stores the document and sets [REVIEW],
    or, when the extraction fails, stores nothing and sets [ERROR] with
    the message of the failure.  It changes the target language only
    after a successful extraction, at most once, and only to the code of
    a supported language whose name the detected language mentions. *)
Theorem handleUploadAndExtract_outcome (fileName : jsstring)
    (extraction : result ExtractedDocument) :
  let updates :=
    handleUploadAndExtract (AudioBuffer := AudioBuffer) toLowerCase
                           (Some (fileName, extraction)) in
  (forall document,
     extraction = Ok document ->
     appStates updates = [EXTRACTING; REVIEW] /\
     In (SetExtractedData document) updates /\
     (forall message, ~ In (SetErrorMsg message) updates)) /\
  (forall message,
     extraction = Err message ->
     appStates updates = [EXTRACTING; ERROR] /\
     In (SetErrorMsg message) updates /\
     (forall document, ~ In (SetExtractedData document) updates) /\
     (forall c, ~ In (SetTargetLang c) updates)) /\
  (forall c,
     In (SetTargetLang c) updates ->
     exists document matched,
       extraction = Ok document /\
       In matched SUPPORTED_LANGUAGES /\
       c = code matched /\
       mentions toLowerCase (detectedLanguage document) matched = true).
Proof.
  cbv zeta; unfold handleUploadAndExtract.
  destruct extraction as [document|m].
  - destruct (matchedLang toLowerCase (detectedLanguage document)) as [matched|] eqn:Ematch.
    + split; [|split].
      * intros d H; injection H as <-.
        split; [reflexivity|]; split;
          [simpl; auto 12 | simpl; intuition discriminate].
      * intros message H; discriminate H.
      * intros c Hc.
        assert (c = code matched) as ->
          by (simpl in Hc; intuition (try discriminate); congruence).
        apply find_some in Ematch as [Hin Hm].
        exists document, matched; repeat split; assumption.
    + split; [|split].
      * intros d H; injection H as <-.
        split; [reflexivity|]; split;
          [simpl; auto 12 | simpl; intuition discriminate].
      * intros message H; discriminate H.
      * intros c Hc; exfalso; simpl in Hc; intuition discriminate.
  - split; [|split].
    + intros d H; discriminate H.
    + intros message H; injection H as <-.
      split; [reflexivity|]; split; [simpl; auto 12|].
      split; intros x; simpl; intuition discriminate.
    + intros c Hc; exfalso; simpl in Hc; intuition discriminate.
Qed.

End HandlerFacts.

(** ** Language selection *)

Lemma units_eqb_refl (s : jsstring) : units_eqb s s = true.
Proof.
  induction s as [|c s IH]; simpl; [reflexivity|].
  rewrite N.eqb_refl; exact IH.
Qed.

Lemma find_agree {A : Type} (f g : A -> bool) (l : list A) :
  (forall x, In x l -> f x = g x) -> find f l = find g l.
Proof.
  induction l as [|x l IH]; intros H; [reflexivity|].
  simpl; rewrite (H x (or_introl eq_refl)).
  rewrite IH by (intros y Hy; apply H; right; exact Hy); reflexivity.
Qed.

Lemma supported_names_basicLatin (l : SupportedLanguage) :
  In l SUPPORTED_LANGUAGES -> basicLatin (name l).
Proof.
  unfold SUPPORTED_LANGUAGES; simpl; intros Hl.
  repeat (destruct Hl as [<- | Hl];
          [apply Forall_forall; intros c Hc; simpl in Hc;
           repeat (destruct Hc as [<- | Hc]; [reflexivity|]); contradiction|]).
  contradiction.
Qed.

(** X18.  When the detected language is the name of a supported
    language up to the host's lower-casing, which on Basic Latin strings
    turns [A-Z] into [a-z], [handleUploadAndExtract] selects that
    language; its code finds it again, no translation is
    needed for it, and the voice then preselected is one of
    [VOICE_OPTIONS]. *)
Theorem matchedLang_supported (toLowerCase : jsstring -> jsstring)
    (l : SupportedLanguage) (detected : jsstring) :
  lowersBasicLatin toLowerCase ->
  In l SUPPORTED_LANGUAGES ->
  toLowerCase detected = toLowerCase (name l) ->
  matchedLang toLowerCase detected = Some l /\
  findLanguage (code l) = Some l /\
  mentions toLowerCase detected l = true /\
  (exists voice, defaultVoice (code l) = Some voice /\ In voice VOICE_OPTIONS).
Proof.
  intros Hhost Hl Hsame.
  assert (forall l', In l' SUPPORTED_LANGUAGES ->
            mentions toLowerCase detected l' =
            includes (toLowerCaseBasic (name l)) (toLowerCaseBasic (name l')))
    as Hmentions.
  { intros l' Hl'; unfold mentions.
    rewrite Hsame, !Hhost by (apply supported_names_basicLatin; assumption).
    reflexivity. }
  unfold matchedLang.
  rewrite (find_agree _ _ _ Hmentions), (Hmentions l Hl).
  clear Hmentions Hsame.
  unfold SUPPORTED_LANGUAGES in Hl; simpl in Hl.
  repeat (destruct Hl as [<- | Hl];
          [vm_compute; repeat split; eexists; split;
           [reflexivity | intuition reflexivity]|]).
  contradiction.
Qed.

Lemma matchedLang_supported_witness :
  matchedLang toLowerCaseBasic (lit "TAMIL")
    = Some (mkLanguage (lit "ta") (lit "Tamil") (lit "Kore")).
Proof.
  apply (matchedLang_supported toLowerCaseBasic
           (mkLanguage (lit "ta") (lit "Tamil") (lit "Kore")) (lit "TAMIL")).
  - intros s _; reflexivity.
  - simpl; auto 12.
  - reflexivity.
Defined.

Lemma handleGenerateAudiobook_translation_witness :
  hd_error
    (appStates
       (match handleGenerateAudiobook (AudioBuffer := nat) toLowerCaseBasic
                (fun _ => Rejected) (fun _ _ _ => Rejected) rawDecode rawEncode
                (fun _ => inr NotAnError)
                (Some (mkDocument (lit "Bonjour.") (lit "French")))
                (lit "de") (lit "Charon") with
        | Some updates => updates
        | None => []
        end)) = Some TRANSLATING.
Proof.
  destruct (handleGenerateAudiobook_translation nat toLowerCaseBasic
              (fun _ => Rejected) (fun _ _ _ => Rejected) rawDecode rawEncode
              (fun _ => inr NotAnError)
              (mkDocument (lit "Bonjour.") (lit "French"))
              (lit "de") (lit "Charon")
              (mkLanguage (lit "de") (lit "German") (lit "Charon")))
    as [_ Hneeded]; [reflexivity|].
  apply (Hneeded eq_refl); reflexivity.
Defined.

Lemma handleGenerateAudiobook_blank_translation_witness :
  appStates
    (match handleGenerateAudiobook (AudioBuffer := nat) toLowerCaseBasic
             (fun _ => Resolved None) (fun _ _ _ => Rejected)
             rawDecode rawEncode (fun _ => inr NotAnError)
             (Some (mkDocument (lit "Bonjour.") (lit "French")))
             (lit "de") (lit "Charon") with
     | Some updates => updates
     | None => []
     end) = [TRANSLATING; GENERATING_AUDIO; ERROR].
Proof.
  rewrite (handleGenerateAudiobook_blank_translation nat toLowerCaseBasic
             (fun _ => Resolved None) (fun _ _ _ => Rejected)
             rawDecode rawEncode (fun _ => inr NotAnError)
             (mkDocument (lit "Bonjour.") (lit "French"))
             (lit "de") (lit "Charon")
             (mkLanguage (lit "de") (lit "German") (lit "Charon")) None);
    try reflexivity.
  constructor.
Defined.

(** ** What a successful run has sent *)

Lemma trimStart_nil (s : jsstring) :
  trimStart s = [] -> Forall (fun c => isWhiteSpace c = true) s.
Proof.
  induction s as [|c s IH]; simpl; [constructor|].
  destruct (isWhiteSpace c) eqn:E; [|discriminate].
  intros H; constructor; [exact E | exact (IH H)].
Qed.

Lemma trimStart_suffix (s : jsstring) :
  exists pre,
    s = pre ++ trimStart s /\ Forall (fun c => isWhiteSpace c = true) pre.
Proof.
  induction s as [|c s (pre & Hs & Hpre)]; simpl.
  - exists []; split; [reflexivity | constructor].
  - destruct (isWhiteSpace c) eqn:E.
    + exists (c :: pre); split; [simpl; f_equal; exact Hs|].
      constructor; assumption.
    + exists []; split; [reflexivity | constructor].
Qed.

(** A chunk that [trim] empties holds white space only. *)
Lemma trim_nil (s : jsstring) :
  isFalsy (trim s) = true -> Forall (fun c => isWhiteSpace c = true) s.
Proof.
  unfold trim; intros H.
  destruct (rev (trimStart (rev (trimStart s)))) as [|x l] eqn:E;
    [|discriminate H].
  apply (f_equal (@rev N)) in E; rewrite rev_involutive in E; simpl in E.
  apply trimStart_nil in E.
  apply Forall_rev in E; rewrite rev_involutive in E.
  destruct (trimStart_suffix s) as (pre & Hs & Hpre).
  rewrite Hs; apply Forall_app; split; assumption.
Qed.

Definition visible (s : jsstring) : jsstring :=
  filter (fun c => negb (isWhiteSpace c)) s.

Lemma visible_white (s : jsstring) :
  Forall (fun c => isWhiteSpace c = true) s -> visible s = [].
Proof.
  induction 1 as [|c s Hc _ IH]; [reflexivity|].
  unfold visible in *; simpl; rewrite Hc; exact IH.
Qed.

Lemma visible_planned (chunks : list jsstring) :
  visible (concat (planned chunks)) = visible (concat chunks).
Proof.
  induction chunks as [|chunk chunks IH]; [reflexivity|].
  rewrite planned_cons; simpl.
  unfold visible in *; rewrite filter_app.
  destruct (isFalsy (trim chunk)) eqn:E.
  - fold (visible chunk); rewrite (visible_white chunk (trim_nil chunk E)).
    exact IH.
  - simpl; rewrite filter_app, IH; reflexivity.
Qed.

Section SpeechCoverage.

Variable generateContent :
  nat -> jsstring -> jsstring -> outcome (option jsstring).
Variable base64ToBytes : jsstring -> option bytes.
Variable bytesToBase64 : bytes -> jsstring.

(** X20.  When [generateSpeech] returns a value, the chunks it has sent,
    put together in the order sent, hold every code unit of the text
    that is not white space, in the order of the text and once each:
    only white space is left unsent. *)
Theorem generateSpeech_sends_all_text (text voiceName : jsstring)
    (sent : list (jsstring * jsstring)) (value : jsstring) :
  generateSpeech generateContent base64ToBytes bytesToBase64 text voiceName
    = Some (sent, Ok value) ->
  visible (concat (map fst sent)) = visible text.
Proof.
  unfold generateSpeech; intros Hrun.
  destruct (splitTextSafe text TTS_CHUNK_SIZE) as [chunks|] eqn:Esplit;
    [|discriminate].
  destruct (speechLoop generateContent base64ToBytes chunks voiceName
              (mkSpeech [] [])) as [sent' loopEnd] eqn:Eloop.
  injection Hrun as <- Hfin.
  destruct loopEnd as [collected|]; [|discriminate Hfin].
  apply speechLoop_ends in Eloop as (Hsent & _).
  simpl in Hsent; subst sent'.
  unfold asRequests; rewrite map_map; simpl; rewrite map_id.
  rewrite visible_planned.
  destruct (splitTextSafe_cuts text TTS_CHUNK_SIZE) as (chunks' & Hrun' & Hcuts);
    [unfold TTS_CHUNK_SIZE; lia|].
  rewrite Esplit in Hrun'; injection Hrun' as <-.
  rewrite (Cuts_concat text TTS_CHUNK_SIZE 0 chunks);
    [reflexivity | unfold TTS_CHUNK_SIZE; lia | lia | exact Hcuts].
Qed.

End SpeechCoverage.

Lemma generateSpeech_sends_all_text_witness :
  visible (concat (map fst [(lit "Good evening.", lit "Kore")]))
    = visible (lit "Good evening.").
Proof.
  apply (generateSpeech_sends_all_text
           (fun _ _ _ => Resolved (Some (lit "QUJD"))) rawDecode rawEncode
           (lit "Good evening.") (lit "Kore")
           [(lit "Good evening.", lit "Kore")] (lit "QUJD")).
  vm_compute; reflexivity.
Defined.
